(** * NetApp volume migration: the scheduler of [main.py]

    A shallow embedding of [VolumeMove] (the polling worker
    [wait_for_move_completion] / [process_volume_move], the bounded
    dispatcher [process_volume_list]) and of the target collection done by
    [main], followed by the properties of the design notes that can be
    checked against them.

    Conventions.
    - Strings are sequences of code points below 256 ([string] of [ascii]).
    - [time.time()] is read in whole seconds ([Z]); time passes only in the
      calls that block: a status query, the start of a move, [time.sleep].
    - The vendor control plane is a [ControlPlane]: what
      [initiate_volume_move_cli] answers for a volume and what the n-th
      [Job.get()] of a job answers.
    - Python dictionaries that are only read and written by key are [gmap]s;
      [in_progress], which is iterated, is an insertion-ordered association
      list with unique keys. *)

From Stdlib Require Import ZArith Lia Ascii.
From Equations Require Import Equations.
From stdpp Require Import gmap strings list.

(** ** Strings: [str.lower], [str.strip] *)

(** [str.lower] on one code point below 256: A-Z, and the Latin-1 capitals
    192..222 except the multiplication sign 215, move up by 32. *)
Definition lower_char (c : ascii) : ascii :=
  let n := nat_of_ascii c in
  if ((65 <=? n) && (n <=? 90)) || ((192 <=? n) && (n <=? 222) && negb (n =? 215))
  then ascii_of_nat (n + 32)
  else c.

Fixpoint str_lower (s : string) : string :=
  match s with
  | EmptyString => EmptyString
  | String c r => String (lower_char c) (str_lower r)
  end.

(** [str.isspace] on one code point below 256. *)
Definition is_space (c : ascii) : bool :=
  let n := nat_of_ascii c in
  ((9 <=? n) && (n <=? 13)) || ((28 <=? n) && (n <=? 32)) || (n =? 133) || (n =? 160).

Fixpoint lstrip (s : string) : string :=
  match s with
  | EmptyString => EmptyString
  | String c r => if is_space c then lstrip r else s
  end.

Fixpoint rstrip (s : string) : string :=
  match s with
  | EmptyString => EmptyString
  | String c r =>
      match rstrip r with
      | EmptyString => if is_space c then EmptyString else String c EmptyString
      | r' => String c r'
      end
  end.

Definition strip (s : string) : string := rstrip (lstrip s).

(** ** The control plane *)

(** One [Job.get()]: the job's fields ([state] a string, [progress] the
    percentage when the job has one), or an exception ([NetAppRestError] or
    any other). *)
Inductive PollReply :=
  | JobInfo (state : string) (progress : option Z)
  | PollRaises.

(** The vendor API as the workers see it. The command line behind
    [initiate_volume_move_cli] is not modelled, only the pair the method
    returns. *)
Record ControlPlane := {
  (** [initiate_volume_move_cli volume dest cutover_action cutover_window]:
      [(True, job_id)] or [(False, error text)]. *)
  start_move : string → string → string → Z → bool * string;
  (** seconds the start request blocks *)
  start_latency : string → N;
  (** the n-th status query of a job *)
  job_reply : string → nat → PollReply;
  (** seconds the n-th status query of a job blocks *)
  job_latency : string → nat → N
}.

(** The cluster a run talks to. *)
Record World := {
  plane : ControlPlane;
  (** whether the destination aggregate is really online *)
  aggr_online : string → bool;
  (** whether the body of the health check's [try] raises *)
  health_probe_raises : bool
}.

(** ** The worker: one volume move *)

Inductive WorkerLog :=
  | LogStartingMove (vol dest : string)
  | LogInitiateFailed (vol msg : string)
  | LogStatusError (vol job_id : string)
  | LogProgress (vol : string) (percent : Z) (state : string)
  | LogMoveCompleted (vol : string)
  | LogMoveFailed (vol : string)
  | LogMoveTimedOut (vol : string) (timeout : Z).

(** [get_move_status]: state and percent of the job; any exception of the
    query is logged and answered as [("error", 0)]. *)
Definition get_move_status (cp : ControlPlane) (volume_name job_id : string) (n : nat)
  : string * Z * list WorkerLog :=
  match job_reply cp job_id n with
  | JobInfo state progress =>
      (state, match progress with Some p => p | None => 0%Z end, [])
  | PollRaises => ("error", 0%Z, [LogStatusError volume_name job_id])
  end.

Definition success_states : list string := ["success"; "complete"; "completed"].
Definition failure_states : list string := ["failure"; "error"; "failed"].

(** [state.lower() in ["success", "complete", "completed"]] *)
Definition is_success_state (state : string) : bool :=
  bool_decide (str_lower state ∈ success_states).

(** [state.lower() in ["failure", "error", "failed"]] *)
Definition is_failure_state (state : string) : bool :=
  bool_decide (str_lower state ∈ failure_states).

Record WaitRun := {
  wait_result : bool;
  wait_polls : nat;          (* status queries made *)
  wait_end : Z;              (* clock when the call returns *)
  wait_log : list WorkerLog
}.

Definition log_interval : Z := 300.
Definition poll_sleep : Z := 30.

Section Wait.
Context (cp : ControlPlane) (volume_name job_id : string) (timeout start_time : Z).
Local Open Scope Z_scope.

(** One turn of the loop body up to the [time.sleep]: the status query,
    the progress line, the two membership tests. [Some b] is
    [return b]; [None] falls through to the sleep. *)
Definition poll_turn (current_time : Z) (n : nat) (last_percent last_log_time : Z)
    (lg : list WorkerLog) : option bool * Z * Z * list WorkerLog :=
  let '(state, percent_complete, errs) := get_move_status cp volume_name job_id n in
  let lg := lg ++ errs in
  let time_since_last_log := current_time - last_log_time in
  let logs := negb (percent_complete =? last_percent)
              || (log_interval <=? time_since_last_log) in
  let lg := if logs then lg ++ [LogProgress volume_name percent_complete state] else lg in
  let last_percent := if logs then percent_complete else last_percent in
  let last_log_time := if logs then current_time else last_log_time in
  if is_success_state state then
    (Some true, last_percent, last_log_time, lg ++ [LogMoveCompleted volume_name])
  else if is_failure_state state then
    (Some false, last_percent, last_log_time, lg ++ [LogMoveFailed volume_name])
  else (None, last_percent, last_log_time, lg).

(** The [while time.time() - start_time < timeout] loop of
    [wait_for_move_completion]; [n] counts the status queries made so
    far. Every turn that does not return sleeps 30 seconds, so the
    distance to the timeout shrinks. *)
Equations? wait_loop (now : Z) (n : nat) (last_percent last_log_time : Z)
    (lg : list WorkerLog) : WaitRun
  by wf (Z.to_nat (timeout - (now - start_time))) lt :=
wait_loop now n last_percent last_log_time lg
    with Z_lt_dec (now - start_time) timeout := {
  | right _ =>
      {| wait_result := false; wait_polls := n; wait_end := now;
         wait_log := lg ++ [LogMoveTimedOut volume_name timeout] |}
  | left _ =>
      let '(ret, last_percent, last_log_time, lg) :=
        poll_turn now n last_percent last_log_time lg in
      let now := now + Z.of_N (job_latency cp job_id n) in
      match ret with
      | Some b =>
          {| wait_result := b; wait_polls := S n; wait_end := now; wait_log := lg |}
      | None => wait_loop (now + poll_sleep) (S n) last_percent last_log_time lg
      end }.
Proof. unfold poll_sleep. lia. Qed.
End Wait.

(** [wait_for_move_completion(volume_name, job_id, timeout)], entered when
    the clock reads [now]. *)
Definition wait_for_move_completion (cp : ControlPlane) (volume_name job_id : string)
    (timeout now : Z) : WaitRun :=
  wait_loop cp volume_name job_id timeout now now 0 (-1)%Z 0%Z [].

(** [self.active_moves] and [self.move_results], shared by the workers. *)
Record Shared := {
  active_moves : gmap string string;   (* vol_name -> job_id *)
  move_results : gmap string bool      (* vol_name -> success *)
}.

Record WorkerRun := {
  wr_result : bool;
  wr_shared : Shared;
  wr_end : Z;                (* clock when the worker returns *)
  wr_polls : nat;
  wr_log : list WorkerLog
}.

(** The default of the [timeout] parameter of [process_volume_move]. *)
Definition default_timeout : Z := 86400.

(** [process_volume_move(volume_name, dest_aggr, cutover_action,
    cutover_window, timeout)], entered when the clock reads [now]. *)
Definition process_volume_move (cp : ControlPlane)
    (volume_name dest_aggr cutover_action : string)
    (cutover_window timeout : Z) (now : Z) (sh : Shared) : WorkerRun :=
  let lg := [LogStartingMove volume_name dest_aggr] in
  let '(success, result) :=
    start_move cp volume_name dest_aggr cutover_action cutover_window in
  let now := (now + Z.of_N (start_latency cp volume_name))%Z in
  if negb success then
    {| wr_result := false;
       wr_shared := {| active_moves := active_moves sh;
                       move_results := <[volume_name := false]> (move_results sh) |};
       wr_end := now; wr_polls := 0;
       wr_log := lg ++ [LogInitiateFailed volume_name result] |}
  else
    let job_id := result in
    let sh := {| active_moves := <[volume_name := job_id]> (active_moves sh);
                 move_results := move_results sh |} in
    let r := wait_for_move_completion cp volume_name job_id timeout now in
    let move_success := wait_result r in
    {| wr_result := move_success;
       wr_shared := {| active_moves := delete volume_name (active_moves sh);
                       move_results := <[volume_name := move_success]> (move_results sh) |};
       wr_end := wait_end r; wr_polls := wait_polls r;
       wr_log := lg ++ wait_log r |}.

(** ** The scheduler: [process_volume_list] *)

(** The lines the dispatcher logs about a target. *)
Inductive SchedLog :=
  | LogStarted (vol : string) (k total : nat)   (* "Started migration for volume" *)
  | LogSuccess (vol : string)                   (* "[SUCCESS] Volume ..." *)
  | LogFailed (vol : string).                   (* "[FAILED] Volume ..." *)

(** A submitted call: what it returns, and the second of the main loop from
    which [future.done()] holds. *)
Record Future := { fut_result : bool; fut_ready : nat }.

(** [d[k] = v] on an insertion-ordered dictionary: a present key keeps its
    place. *)
Fixpoint dict_set (d : list (string * Future)) (k : string) (v : Future)
  : list (string * Future) :=
  match d with
  | [] => [(k, v)]
  | (k', v') :: r => if decide (k' = k) then (k, v) :: r else (k', v') :: dict_set r k v
  end.

(** [del d[k]]; the dispatcher only deletes keys it has just read. *)
Definition dict_del (d : list (string * Future)) (k : string) : list (string * Future) :=
  filter (λ kv, kv.1 ≠ k) d.

Record Sched := {
  in_progress : list (string * Future);
  remaining_volumes : list string;
  completed_volumes : list string;
  success_count : nat;
  failed_volumes : list string;
  sched_log : list SchedLog
}.

(** The final report. *)
Record Summary := {
  total_processed : nat;
  successfully_moved : nat;
  failed_to_move : nat;
  failed_list : list string
}.

(** How a call of [process_volume_list] ends. *)
Inductive Run :=
  | Aborted                 (* [return False] of the pre-flight check: no report *)
  | RaisedValueError        (* [ThreadPoolExecutor(max_workers)] with [max_workers <= 0] *)
  | Finished (ret : bool) (summary : Summary) (st : Sched).

(** [_check_destination_aggr_status]: logs and returns [True]; [False] only
    from the two [except] branches. The state of the aggregate is not
    queried. *)
Definition _check_destination_aggr_status (w : World) (dest_aggr : string) : bool :=
  if health_probe_raises w then false else true.

Section Scheduler.
Context (cp : ControlPlane) (dest_aggr cutover_action : string) (cutover_window : Z).

(** [executor.submit(self.process_volume_move, volume, dest_aggr,
    cutover_action, cutover_window)] at second [tick] of the main loop:
    the call runs with the default [timeout]. The main loop turns once a
    second ([time.sleep(1)]) and a pool thread is free whenever the
    dispatcher submits, so the future is done as many seconds later as the
    worker takes. What the worker returns and how long it takes depend
    neither on the clock at its start nor on the shared dictionaries
    ([process_volume_move_shift]), so it is run from second 0 on empty
    dictionaries. *)
Definition submit (tick : nat) (volume : string) : Future :=
  let r := process_volume_move cp volume dest_aggr cutover_action cutover_window
             default_timeout 0 {| active_moves := ∅; move_results := ∅ |} in
  {| fut_result := wr_result r; fut_ready := tick + Z.to_nat (wr_end r) |}.

(** The initial batch: [for i, volume in enumerate(volume_list[:max_concurrent])]. *)
Fixpoint seed (total_volumes i : nat) (vols : list string)
    (d : list (string * Future)) (lg : list SchedLog)
  : list (string * Future) * list SchedLog :=
  match vols with
  | [] => (d, lg)
  | volume :: rest =>
      seed total_volumes (S i) rest (dict_set d volume (submit 0 volume))
           (lg ++ [LogStarted volume (i + 1) total_volumes])
  end.

(** Body of [for vol, future in list(in_progress.items())]. *)
Definition reap_one (tick : nat) (acc : Sched * list string) (item : string * Future)
  : Sched * list string :=
  let '(st, completed_now) := acc in
  let '(vol, future) := item in
  if fut_ready future <=? tick then
    let success := fut_result future in
    ({| in_progress := dict_del (in_progress st) vol;
        remaining_volumes := remaining_volumes st;
        completed_volumes := completed_volumes st ++ [vol];
        success_count := if success then success_count st + 1 else success_count st;
        failed_volumes := if success then failed_volumes st else failed_volumes st ++ [vol];
        sched_log := sched_log st ++ [if success then LogSuccess vol else LogFailed vol] |},
     completed_now ++ [vol])
  else acc.

Definition reap (tick : nat) (st : Sched) : Sched * list string :=
  fold_left (reap_one tick) (in_progress st) (st, []).

(** Body of [for _ in completed_now]. *)
Definition refill_one (total_volumes tick : nat) (st : Sched) (_ : string) : Sched :=
  match remaining_volumes st with
  | [] => st
  | next_vol :: rest =>
      let d := dict_set (in_progress st) next_vol (submit tick next_vol) in
      {| in_progress := d;
         remaining_volumes := rest;
         completed_volumes := completed_volumes st;
         success_count := success_count st;
         failed_volumes := failed_volumes st;
         sched_log := sched_log st ++
           [LogStarted next_vol (length (completed_volumes st) + length d) total_volumes] |}
  end.

Definition refill (total_volumes tick : nat) (st : Sched) (completed_now : list string)
  : Sched :=
  fold_left (refill_one total_volumes tick) completed_now st.

(** One turn of [while in_progress]. The periodic status block only logs
    and is left out. *)
Definition turn (total_volumes tick : nat) (st : Sched) : Sched :=
  let '(st, completed_now) := reap tick st in
  refill total_volumes tick st completed_now.

(** [while in_progress: ...; time.sleep(1)], for at most [fuel] turns; the
    flag tells whether the loop was left. *)
Fixpoint main_loop (fuel total_volumes tick : nat) (st : Sched) : Sched * bool :=
  match in_progress st with
  | [] => (st, true)
  | _ :: _ =>
      match fuel with
      | 0 => (st, false)
      | S fuel => main_loop fuel total_volumes (S tick) (turn total_volumes tick st)
      end
  end.

(** The state on entering the main loop. *)
Definition scheduler_start (volume_list : list string) (max_concurrent : nat) : Sched :=
  let '(d, lg) := seed (length volume_list) 0 (take max_concurrent volume_list) [] [] in
  {| in_progress := d;
     remaining_volumes := drop max_concurrent volume_list;
     completed_volumes := [];
     success_count := 0;
     failed_volumes := [];
     sched_log := lg |}.

(** The body of [with ThreadPoolExecutor(...)], cut after [fuel] turns. *)
Definition scheduler_run (fuel : nat) (volume_list : list string) (max_concurrent : nat)
  : Sched * bool :=
  main_loop fuel (length volume_list) 0 (scheduler_start volume_list max_concurrent).

Definition final_report (total_volumes : nat) (st : Sched) : Summary :=
  {| total_processed := total_volumes;
     successfully_moved := success_count st;
     failed_to_move := length (failed_volumes st);
     failed_list := failed_volumes st |}.
End Scheduler.

(** [process_volume_list(volume_list, dest_aggr, max_concurrent,
    cutover_action, cutover_window, timeout, ignore_health_check)];
    [None] when the main loop is still running after [fuel] turns. The
    [timeout] argument is accepted and not passed on. *)
Definition process_volume_list (w : World) (dest_aggr cutover_action : string)
    (cutover_window : Z) (fuel : nat) (volume_list : list string)
    (max_concurrent : Z) (timeout : Z) (ignore_health_check : bool) : option Run :=
  let total_volumes := length volume_list in
  if negb ignore_health_check && negb (_check_destination_aggr_status w dest_aggr)
  then Some Aborted
  else if (max_concurrent <=? 0)%Z then Some RaisedValueError
  else
    let '(st, left_loop) :=
      scheduler_run (plane w) dest_aggr cutover_action cutover_window
                    fuel volume_list (Z.to_nat max_concurrent) in
    if left_loop
    then Some (Finished (success_count st =? total_volumes)
                        (final_report total_volumes st) st)
    else None.

(** ** The command line: which targets reach the scheduler *)

(** [read_volume_list]: the stripped non-blank lines of the file; [[]] when
    opening or reading raises ([None]). *)
Definition read_volume_list (file : option (list string)) : list string :=
  match file with
  | Some lines => filter (λ s, s ≠ EmptyString) (strip <$> lines)
  | None => []
  end.

Record Args := {
  arg_dest_aggr : string;
  arg_volume_list : option (option (list string));  (* --volume-list and the file behind it *)
  arg_volume : option (list string);                 (* the --volume flags *)
  arg_max_concurrent : Z;
  arg_cutover_action : string;
  arg_cutover_window : Z;
  arg_ignore_health_check : bool;
  arg_timeout : Z
}.

(** [volumes] before the duplicates are removed. *)
Definition supplied_volumes (a : Args) : list string :=
  (match arg_volume_list a with Some file => read_volume_list file | None => [] end)
  ++ (match arg_volume a with Some vs => vs | None => [] end).

Section Cli.
(** The order in which [list(set(volumes))] enumerates the set built from
    [volumes]; Python leaves it to the hashes of the strings. *)
Context (set_order : list string → list string).

(** The list handed to [process_volume_list]; [None] is [sys.exit(1)] for
    want of volumes. *)
Definition main_volumes (a : Args) : option (list string) :=
  let volumes := supplied_volumes a in
  match volumes with
  | [] => None
  | _ :: _ => Some (set_order volumes)
  end.

(** The exit status of [main]; [None] when the run needs more than [fuel]
    turns of the main loop. *)
Definition main (w : World) (fuel : nat) (a : Args) : option nat :=
  match main_volumes a with
  | None => Some 1
  | Some volumes =>
      match process_volume_list w (arg_dest_aggr a) (arg_cutover_action a)
              (arg_cutover_window a) fuel volumes (arg_max_concurrent a)
              (arg_timeout a) (arg_ignore_health_check a) with
      | None => None
      | Some (Finished true _ _) => Some 0
      | Some (Finished false _ _) => Some 1
      | Some Aborted => Some 1
      | Some RaisedValueError => Some 1   (* [except Exception]: "Fatal error" *)
      end
  end.
End Cli.

(** ** Views used to state the properties *)

(** The states of the design's polling state machine. *)
Inductive JobState := Polling | Succeeded | Failed | TimedOut.

(** What one status query does to a job in [Polling]: the two membership
    tests of [wait_for_move_completion], in their order. *)
Definition poll_transition (state : string) : JobState :=
  if is_success_state state then Succeeded
  else if is_failure_state state then Failed
  else Polling.

(** The terminal state a finished wait reports: its last log line. *)
Definition final_state (r : WaitRun) : JobState :=
  match last (wait_log r) with
  | Some (LogMoveCompleted _) => Succeeded
  | Some (LogMoveFailed _) => Failed
  | Some (LogMoveTimedOut _ _) => TimedOut
  | _ => Polling
  end.

(** The targets a log reports as started, in order. *)
Definition started (lg : list SchedLog) : list string :=
  omap (λ e, match e with LogStarted v _ _ => Some v | _ => None end) lg.

(** The targets a log reports with a terminal line, in order. *)
Definition finished (lg : list SchedLog) : list string :=
  omap (λ e, match e with LogSuccess v | LogFailed v => Some v | _ => None end) lg.

(** The keys of [in_progress] after the lines of a log: every "Started"
    line follows [in_progress[vol] = future], every terminal line goes with
    [del in_progress[vol]]. *)
Definition active_step (ks : list string) (e : SchedLog) : list string :=
  match e with
  | LogStarted v _ _ => if decide (v ∈ ks) then ks else ks ++ [v]
  | LogSuccess v | LogFailed v => filter (λ k, k ≠ v) ks
  end.

Definition active_after (lg : list SchedLog) : list string :=
  fold_left active_step lg [].

Section Invariants.
Context (w : ControlPlane) (dest_aggr cutover_action : string) (cutover_window : Z).

(** What the worker of a volume returns, and the seconds it takes. *)
Definition worker_result (v : string) : bool :=
  fut_result (submit w dest_aggr cutover_action cutover_window 0 v).

Definition worker_seconds (v : string) : nat :=
  fut_ready (submit w dest_aggr cutover_action cutover_window 0 v).

(** The invariant of the dispatcher, at every point between two of its
    updates. [K] is the bound, [vl] the input list, [pending] what is not
    yet submitted, [c] the slots freed in this turn and not yet refilled. *)
Record SchedInv (K : nat) (vl : list string) (c : nat) (pending : list string)
    (d : list (string * Future)) (completed : list string) (sc : nat)
    (failed : list string) (lg : list SchedLog) : Prop := {
  inv_keys : NoDup d.*1;
  inv_active : d.*1 = active_after lg;
  inv_slots : length d + c ≤ K;
  inv_budget : length (started lg) + c ≤ K + length (finished lg);
  inv_prefixes : ∀ p, p `prefix_of` lg →
    length (active_after p) ≤ K ∧ length (started p) ≤ K + length (finished p);
  inv_fifo : started lg ++ pending = vl;
  inv_completed : finished lg = completed;
  inv_honest : ∀ k f, (k, f) ∈ d → fut_result f = worker_result k;
  inv_failed : failed = filter (λ v, worker_result v = false) completed;
  inv_success : sc = length (filter (λ v, worker_result v = true) completed);
  inv_lines : ∀ v, (LogSuccess v ∈ lg → worker_result v = true) ∧
                   (LogFailed v ∈ lg → worker_result v = false);
  inv_perm : NoDup vl → d.*1 ++ completed ≡ₚ started lg
}.

Definition state_inv (K : nat) (vl : list string) (c : nat) (st : Sched) : Prop :=
  SchedInv K vl c (remaining_volumes st) (in_progress st) (completed_volumes st)
           (success_count st) (failed_volumes st) (sched_log st).

(** The turns the main loop can still need: every future in flight counts
    the seconds to its completion plus one, every pending target the
    seconds of its worker plus one. *)
Definition pot_d (t : nat) (d : list (string * Future)) : nat :=
  sum_list ((λ kv, S (fut_ready kv.2 - t)) <$> d).

Definition pot_r (rem : list string) : nat :=
  sum_list ((λ v, S (worker_seconds v)) <$> rem).

(** Turns of the main loop that are enough for a run over [vl]. *)
Definition fuel_needed (vl : list string) : nat := pot_r vl.
End Invariants.

(** What a finished call reports, and what it submitted. *)
Definition run_summary (r : Run) : option Summary :=
  match r with
  | Finished _ summary _ => Some summary
  | _ => None
  end.

Definition run_return (r : Run) : option bool :=
  match r with
  | Finished ret _ _ => Some ret
  | Aborted => Some false
  | RaisedValueError => None
  end.

Definition run_log (r : Run) : list SchedLog :=
  match r with
  | Finished _ _ st => sched_log st
  | _ => []
  end.

Definition run_started (r : Run) : list string := started (run_log r).

(** The same control plane with another answer of the health probe. *)
Definition with_health_probe (w : World) (raises : bool) : World :=
  {| plane := plane w;
     aggr_online := aggr_online w;
     health_probe_raises := raises |}.

(** ** Sample control planes *)

Definition job_of (v : string) : string := "job-" +:+ v.

(** Every move starts and its first status query answers ["success"]. *)
Definition cp_plain : ControlPlane :=
  {| start_move := λ v _ _ _, (true, job_of v);
     start_latency := λ _, 0%N;
     job_reply := λ _ _, JobInfo "success" (Some 100%Z);
     job_latency := λ _ _, 0%N |}.

(** Every status query raises. *)
Definition cp_poll_error : ControlPlane :=
  {| start_move := λ v _ _ _, (true, job_of v);
     start_latency := λ _, 0%N;
     job_reply := λ _ _, PollRaises;
     job_latency := λ _ _, 0%N |}.

(** Every status query answers ["completed "], with a trailing blank. *)
Definition cp_trailing_space : ControlPlane :=
  {| start_move := λ v _ _ _, (true, job_of v);
     start_latency := λ _, 0%N;
     job_reply := λ _ _, JobInfo "completed " (Some 100%Z);
     job_latency := λ _ _, 0%N |}.

(** The start of ["volA"] is rejected after 5 seconds; ["volC"] fails
    remotely; the others succeed on their second query. *)
Definition cp_volA_rejected : ControlPlane :=
  {| start_move := λ v _ _ _,
       if decide (v = "volA") then (false, "rejected") else (true, job_of v);
     start_latency := λ v, if decide (v = "volA") then 5%N else 0%N;
     job_reply := λ j n,
       if decide (j = "job-volC") then JobInfo "failed" None
       else if n <? 1 then JobInfo "running" (Some 10%Z)
       else JobInfo "Complete" None;
     job_latency := λ _ _, 0%N |}.

(** The job answers ["running"] three times (seconds 0, 30, 60) and
    ["success"] at second 90. *)
Definition cp_slow : ControlPlane :=
  {| start_move := λ v _ _ _, (true, job_of v);
     start_latency := λ _, 0%N;
     job_reply := λ _ n,
       if n <? 3 then JobInfo "running" (Some 50%Z) else JobInfo "success" (Some 100%Z);
     job_latency := λ _ _, 0%N |}.

(** A cluster whose destination is online and whose health probe does not
    raise. *)
Definition healthy (cp : ControlPlane) : World :=
  {| plane := cp; aggr_online := λ _, true; health_probe_raises := false |}.

(** The destination is offline, and the health probe does not raise. *)
Definition w_offline : World :=
  {| plane := cp_plain; aggr_online := λ _, false; health_probe_raises := false |}.

(** The health probe raises. *)
Definition w_probe_raises : World := with_health_probe (healthy cp_plain) true.

(** One order a set may be enumerated in. *)
Definition sorted_set_order (l : list string) : list string :=
  elements (list_to_set l : gset string).

Definition sample_args (file : option (option (list string)))
    (flags : option (list string)) (timeout : Z) : Args :=
  {| arg_dest_aggr := "aggr1";
     arg_volume_list := file;
     arg_volume := flags;
     arg_max_concurrent := 4;
     arg_cutover_action := "retry";
     arg_cutover_window := 30;
     arg_ignore_health_check := false;
     arg_timeout := timeout |}.

(** ** Starting a move over SSH: [initiate_volume_move_cli] *)

(** [needle in hay] *)
Fixpoint str_contains (needle hay : string) : bool :=
  if String.prefix needle hay then true
  else match hay with
       | EmptyString => false
       | String _ r => str_contains needle r
       end.

(** [s.split(sep)] for a non-empty [sep], scanning from the left: [skip]
    characters of a separator just found are still to be passed over, [cur]
    is the piece being read. *)
Fixpoint str_split_aux (sep : string) (skip : nat) (cur s : string) : list string :=
  match s with
  | EmptyString => [cur]
  | String c r =>
      match skip with
      | S k => str_split_aux sep k cur r
      | 0 =>
          if String.prefix sep s
          then cur :: str_split_aux sep (String.length sep - 1) EmptyString r
          else str_split_aux sep 0 (cur +:+ String c EmptyString) r
      end
  end.

Definition str_split (sep s : string) : list string :=
  str_split_aux sep 0 EmptyString s.

(** [s.split()]: the maximal runs of non-blank characters. *)
Fixpoint str_words_aux (cur s : string) : list string :=
  match s with
  | EmptyString => match cur with EmptyString => [] | _ => [cur] end
  | String c r =>
      if is_space c
      then match cur with
           | EmptyString => str_words_aux EmptyString r
           | _ => cur :: str_words_aux EmptyString r
           end
      else str_words_aux (cur +:+ String c EmptyString) r
  end.

Definition str_words (s : string) : list string := str_words_aux EmptyString s.

(** The class [\d] on code points below 256. *)
Definition is_digit (c : ascii) : bool :=
  let n := nat_of_ascii c in (48 <=? n) && (n <=? 57).

(** The longest prefix of characters in a class, and the rest. *)
Fixpoint str_span (p : ascii → bool) (s : string) : string * string :=
  match s with
  | EmptyString => (EmptyString, EmptyString)
  | String c r =>
      if p c then let '(a, b) := str_span p r in (String c a, b)
      else (EmptyString, s)
  end.

(** A lower-case literal matched at the head of [s] without regard to case;
    the rest of [s] on success. *)
Fixpoint match_nocase (pat s : string) : option string :=
  match pat with
  | EmptyString => Some s
  | String p pat' =>
      match s with
      | EmptyString => None
      | String c r => if decide (lower_char c = p) then match_nocase pat' r else None
      end
  end.

(** [re.match(r'job-id\s+(\d+)', s, re.IGNORECASE)]: group 1. The blanks
    and the digits are taken greedily; the two classes share no character,
    so giving blanks back never makes a match. *)
Definition match_job_id (s : string) : option string :=
  match match_nocase "job-id" s with
  | None => None
  | Some rest =>
      let '(blanks, rest) := str_span is_space rest in
      let '(digits, _) := str_span is_digit rest in
      match blanks, digits with
      | String _ _, String _ _ => Some digits
      | _, _ => None
      end
  end.

(** [re.search(r'job-id\s+(\d+)', s, re.IGNORECASE)]: group 1 of the
    leftmost match. *)
Fixpoint re_search_job_id (s : string) : option string :=
  match match_job_id s with
  | Some digits => Some digits
  | None =>
      match s with
      | EmptyString => None
      | String _ r => re_search_job_id r
      end
  end.

(** How [subprocess.run] of the ssh command ends. *)
Inductive SshRun :=
  | SshExit (returncode : Z) (stdout stderr : string)
  | SshTimeoutExpired                 (* [subprocess.TimeoutExpired] *)
  | SshFileNotFound                   (* [FileNotFoundError]: no sshpass *)
  | SshOtherError (msg : string).     (* any other exception, [str(e)] *)

(** [initiate_volume_move_cli], from the end of the ssh command on; [None]
    is the path that falls off the end of the method and returns no pair.
    An [IndexError] of the job-id extraction is caught by the method's
    [except Exception] like any other. *)
Definition initiate_volume_move_cli (run : SshRun) : option (bool * string) :=
  match run with
  | SshExit returncode stdout stderr =>
      if negb (returncode =? 0)%Z then Some (false, stderr)
      else if str_contains "Job ID:" stdout then
        match str_split "Job ID:" stdout !! 1 with
        | Some piece =>
            match str_words (strip piece) with
            | job_id :: _ => Some (true, job_id)
            | [] => Some (false, "list index out of range")
            end
        | None => Some (false, "list index out of range")
        end
      else if str_contains "job-id" (str_lower stdout) then
        match re_search_job_id stdout with
        | Some job_id => Some (true, job_id)
        | None => None
        end
      else Some (true, "CLI_JOB")
  | SshTimeoutExpired => Some (false, "SSH command timed out")
  | SshFileNotFound => Some (false, "sshpass not installed")
  | SshOtherError msg => Some (false, msg)
  end.

(** The characters of a string. *)
Fixpoint str_chars (s : string) : list ascii :=
  match s with
  | EmptyString => []
  | String c r => c :: str_chars r
  end.

(** No blank in it; only blanks in it; only digits in it. *)
Definition spaceless (s : string) : Prop := ∀ c, c ∈ str_chars s → is_space c = false.
Definition blank (s : string) : Prop := ∀ c, c ∈ str_chars s → is_space c = true.
Definition all_digits (s : string) : Prop := ∀ c, c ∈ str_chars s → is_digit c = true.

(** Nothing, or something that begins with a blank. *)
Definition blank_led (s : string) : Prop :=
  s = EmptyString ∨ ∃ c r, s = String c r ∧ is_space c = true.

(** Nothing, or something that does not begin with a digit. *)
Definition not_digit_led (s : string) : Prop :=
  s = EmptyString ∨ ∃ c r, s = String c r ∧ is_digit c = false.

(** How a worker whose start request goes over SSH ends: with what
    [process_volume_move] returns, or with the [TypeError] of unpacking
    [None] into [success, result]. *)
Inductive WorkerOutcome :=
  | WorkerReturns (r : WorkerRun)
  | WorkerRaisesTypeError.

(** The control plane whose start request is the given ssh run. *)
Definition plane_over_ssh (cp : ControlPlane) (reply : bool * string) : ControlPlane :=
  {| start_move := λ _ _ _ _, reply;
     start_latency := start_latency cp;
     job_reply := job_reply cp;
     job_latency := job_latency cp |}.

(** [process_volume_move] with [initiate_volume_move_cli] spelled out. *)
Definition process_volume_move_ssh (run : SshRun) (cp : ControlPlane)
    (volume_name dest_aggr cutover_action : string) (cutover_window timeout : Z)
    (now : Z) (sh : Shared) : WorkerOutcome :=
  match initiate_volume_move_cli run with
  | None => WorkerRaisesTypeError
  | Some reply =>
      WorkerReturns (process_volume_move (plane_over_ssh cp reply) volume_name
                       dest_aggr cutover_action cutover_window timeout now sh)
  end.

(** ** The counter of the "Started" lines *)

(** The pairs [(k, total)] of the "Started migration for volume v
    (k/total)" lines of a log, in order. *)
Definition started_counts (lg : list SchedLog) : list (nat * nat) :=
  omap (λ e, match e with LogStarted _ k total => Some (k, total) | _ => None end) lg.

(** ** The duration of the final report *)

(** [hours, remainder = divmod(int(total_seconds), 3600)] and
    [minutes, seconds = divmod(remainder, 60)]. *)
Definition duration_hms (total_seconds : Z) : Z * Z * Z :=
  let '(hours, remainder) := (total_seconds / 3600, total_seconds mod 3600)%Z in
  let '(minutes, seconds) := (remainder / 60, remainder mod 60)%Z in
  (hours, minutes, seconds).

(** ** The check of the destination node *)

(** What [list(Node.get_collection(...))] gives: the records found, or one
    of the two exceptions the method tells apart. *)
Inductive Collection (A : Type) :=
  | RaisesNetAppRestError
  | RaisesOtherError
  | Records (l : list A).
Arguments RaisesNetAppRestError {A}.
Arguments RaisesOtherError {A}.
Arguments Records {A} l.

(** The attributes of a node the check reads; [None] is an attribute that
    is not set, whose access raises [AttributeError]. *)
Record NodeRecord := { node_health : option string; node_state : option string }.

Inductive NodeLog :=
  | LogNodeNotFound                  (* error: "Node/Aggregate ... not found" *)
  | LogNodeHealthNotOptimal          (* warning *)
  | LogNodeNotOnline (state : string)  (* error *)
  | LogNodeApiError                  (* error, [except NetAppRestError] *)
  | LogNodeError.                    (* error, [except Exception] *)

(** The lines logged at level [error]. *)
Definition is_error_line (e : NodeLog) : bool :=
  match e with
  | LogNodeHealthNotOptimal => false
  | _ => true
  end.

(** [_check_destination_node_status]: what it returns and what it logs. *)
Definition _check_destination_node_status (nodes : Collection NodeRecord)
  : bool * list NodeLog :=
  match nodes with
  | RaisesNetAppRestError => (false, [LogNodeApiError])
  | RaisesOtherError => (false, [LogNodeError])
  | Records [] => (false, [LogNodeNotFound])
  | Records (node :: _) =>
      match node_health node with
      | None => (false, [LogNodeError])
      | Some health =>
          let is_healthy := bool_decide (health = "true") in
          match node_state node with
          | None => (false, [LogNodeError])
          | Some state =>
              let is_online := bool_decide (state = "online") in
              (is_online,
               (if is_healthy then [] else [LogNodeHealthNotOptimal])
               ++ (if is_online then [] else [LogNodeNotOnline state]))
          end
      end
  end.

(** ** The REST script: [netapp_volmove_rest.py] *)

Module Rest.

(** A decoded JSON value, as [response.json()] returns it. A number that is
    not an integer behaves like [JNum] in everything the script does with a
    value. An object is held as the list of its items. *)
#[local] Unset Elimination Schemes.
Inductive Json :=
  | JNull
  | JBool (b : bool)
  | JNum (n : Z)
  | JStr (s : string)
  | JArr (items : list Json)
  | JObj (fields : list (string * Json)).
#[local] Set Elimination Schemes.

Fixpoint obj_lookup (k : string) (fields : list (string * Json)) : option Json :=
  match fields with
  | [] => None
  | (k', v) :: rest => if decide (k' = k) then Some v else obj_lookup k rest
  end.

(** [x.get(k, default)]; [None] is the [AttributeError] of a value that is
    not a dict. *)
Definition py_get (x : Json) (k : string) (default : Json) : option Json :=
  match x with
  | JObj fields => Some (match obj_lookup k fields with Some v => v | None => default end)
  | _ => None
  end.

(** [x[k]] for a string [k]; [None] is a [KeyError] or a [TypeError]. *)
Definition py_item (x : Json) (k : string) : option Json :=
  match x with
  | JObj fields => obj_lookup k fields
  | _ => None
  end.

(** What [for v in x] runs over; [None] is the [TypeError] of a value that
    is not iterable. A dict gives its keys, a string its characters. *)
Definition py_iter (x : Json) : option (list Json) :=
  match x with
  | JArr items => Some items
  | JObj fields => Some (JStr <$> fields.*1)
  | JStr s => Some ((λ c, JStr (String c EmptyString)) <$> str_chars s)
  | _ => None
  end.

(** [x == s] for a string [s]. *)
Definition py_eq_str (x : Json) (s : string) : bool :=
  match x with
  | JStr s' => bool_decide (s' = s)
  | _ => false
  end.

(** What [self.session.get(url)] gives: an exception, or a response with
    its status code and its body, [None] when [response.json()] raises. *)
Inductive Response :=
  | RequestRaises
  | Reply (status_code : Z) (json : option Json).

(** The body of [for vol_move in ...] in [get_vol_moves], on the position
    of the record and the two counters; [None] is an exception.
    [detail i uuid] answers the request for the record at position [i]. *)
Definition vol_move_step (source_aggr : string) (detail : nat → Json → Response)
    (acc : option (nat * nat * nat)) (vol_move : Json) : option (nat * nat * nat) :=
  '(i, counter, multi_counter) ← acc;
  state ← py_get vol_move "state" JNull;
  if py_eq_str state "healthy" then
    let counter := counter + 1 in
    uuid ← py_item vol_move "uuid";
    match detail i uuid with
    | RequestRaises => None
    | Reply status_code json =>
        if (status_code =? 200)%Z then
          vol_move_detail ← json;
          source_aggregate ← py_get vol_move_detail "source_aggregate" (JObj []);
          source_aggr_name ← py_get source_aggregate "name" (JStr EmptyString);
          let multi_counter :=
            if py_eq_str source_aggr_name source_aggr
            then multi_counter + 1 else multi_counter in
          volume ← py_get vol_move_detail "volume" (JObj []);
          _ ← py_get volume "name" (JStr "Unknown");
          destination_aggregate ←
            py_get vol_move_detail "destination_aggregate" (JObj []);
          _ ← py_get destination_aggregate "name" (JStr "Unknown");
          _ ← py_get vol_move_detail "percent_complete" (JNum 0);
          Some (S i, counter, multi_counter)
        else Some (S i, counter, multi_counter)
    end
  else Some (S i, counter, multi_counter).

(** [get_vol_moves]: [(counter, multi_counter)]; [(0, 0)] for a status
    other than 200 and from the [except Exception] branch. *)
Definition get_vol_moves (source_aggr : string) (listing : Response)
    (detail : nat → Json → Response) : nat * nat :=
  match listing with
  | RequestRaises => (0, 0)
  | Reply status_code json =>
      if negb (status_code =? 200)%Z then (0, 0)
      else
        match
          vol_moves_data ← json;
          records ← py_get vol_moves_data "records" (JArr []);
          items ← py_iter records;
          foldl (vol_move_step source_aggr detail) (Some (0, 0, 0)) items
        with
        | Some (_, counter, multi_counter) => (counter, multi_counter)
        | None => (0, 0)
        end
  end.

(** What [run] meets: whether [get_volume_info] finds the volume of the
    i-th turn of its loop, whether [check_existing_vol_move] reports a move
    of it, what the requests of the n-th call of [get_vol_moves] answer,
    and whether [start_volume_move] raises. *)
Record Cluster := {
  volume_found : nat → bool;
  existing_move : nat → bool;
  listing : nat → Response;
  detail : nat → nat → Json → Response;
  start_raises : nat → bool
}.

(** What [run] does with a volume of the list. *)
Inductive Decision :=
  | NotFound                              (* "not found, skipping..." *)
  | AlreadyMoving                         (* "already has an active move, skipping..." *)
  | StartRequested (counter : nat)        (* [start_volume_move] is called *)
  | Skipped (counter multi_counter : nat).  (* "Skipping ... - too many active moves" *)

Inductive RunEnd :=
  | Completed        (* the loop ran over the whole list *)
  | ScriptFailed.    (* an exception left [run] *)

(** [counter, multi_counter = self.get_vol_moves()] and
    [while multi_counter >= 2: time.sleep(60); counter, multi_counter =
    self.get_vol_moves()], for at most [fuel] sleeps; [observe n] is the
    n-th call. Gives the last pair and the calls made so far. *)
Fixpoint wait_for_slot (observe : nat → nat * nat) (fuel n : nat)
  : option (nat * nat * nat) :=
  let '(counter, multi_counter) := observe n in
  if 2 <=? multi_counter then
    match fuel with
    | 0 => None
    | S fuel => wait_for_slot observe fuel (S n)
    end
  else Some (counter, multi_counter, S n).

(** [for vol_name in self.volume_list] of [run], from the i-th turn on,
    after [n] calls of [get_vol_moves]; [None] when a wait needs more than
    [fuel] sleeps. *)
Fixpoint run_loop (c : Cluster) (source_aggr : string) (fuel i n : nat)
    (volume_list : list string) (done : list (string * Decision))
  : option (list (string * Decision) * RunEnd) :=
  match volume_list with
  | [] => Some (done, Completed)
  | vol_name :: rest =>
      if negb (volume_found c i)
      then run_loop c source_aggr fuel (S i) n rest (done ++ [(vol_name, NotFound)])
      else if existing_move c i
      then run_loop c source_aggr fuel (S i) n rest (done ++ [(vol_name, AlreadyMoving)])
      else
        match wait_for_slot
                (λ k, get_vol_moves source_aggr (listing c k) (detail c k)) fuel n with
        | None => None
        | Some (counter, multi_counter, n) =>
            if (counter <? 2) && (multi_counter <? 2) then
              let done := done ++ [(vol_name, StartRequested counter)] in
              if start_raises c i then Some (done, ScriptFailed)
              else run_loop c source_aggr fuel (S i) n rest done
            else
              run_loop c source_aggr fuel (S i) n rest
                       (done ++ [(vol_name, Skipped counter multi_counter)])
        end
  end.

(** The loop of [run] over [self.volume_list]. *)
Definition run (c : Cluster) (source_aggr : string) (fuel : nat)
    (volume_list : list string) : option (list (string * Decision) * RunEnd) :=
  run_loop c source_aggr fuel 0 0 volume_list [].

(** The records [get_vol_moves] counts, and those it can ask about. *)
Definition healthy_record (vol_move : Json) : bool :=
  match py_get vol_move "state" JNull with
  | Some state => py_eq_str state "healthy"
  | None => false
  end.

Definition has_uuid (vol_move : Json) : bool :=
  match py_item vol_move "uuid" with
  | Some _ => true
  | None => false
  end.

(** A cluster that reports three healthy moves, two of them from the
    source aggregate ["aggr0"] on the first call and none of them later. *)
Definition sample_moves : Json :=
  JObj [("records",
         JArr [JObj [("uuid", JStr "m1"); ("state", JStr "healthy")];
               JObj [("uuid", JStr "m2"); ("state", JStr "healthy")];
               JObj [("uuid", JStr "m3"); ("state", JStr "healthy")];
               JObj [("uuid", JStr "m4"); ("state", JStr "done")]])].

Definition sample_detail (n i : nat) (uuid : Json) : Response :=
  Reply 200 (Some (JObj [("source_aggregate",
                          JObj [("name",
                                 JStr (if (n <? 1) && (i <? 2) then "aggr0" else "aggr9"))]);
                         ("volume", JObj [("name", JStr "v")]);
                         ("percent_complete", JNum 40)])).

Definition sample_cluster : Cluster :=
  {| volume_found := λ i, negb (i =? 1);
     existing_move := λ _, false;
     listing := λ n, if n <? 2 then Reply 200 (Some sample_moves) else Reply 503 None;
     detail := sample_detail;
     start_raises := λ _, false |}.

End Rest.

(** * Properties of the worker *)

Lemma lower_char_idem (c : ascii) : lower_char (lower_char c) = lower_char c.
Proof. destruct c as [[] [] [] [] [] [] [] []]; reflexivity. Qed.

Lemma str_lower_idem (s : string) : str_lower (str_lower s) = str_lower s.
Proof. induction s as [|c s IH]; simpl; [done|]. by rewrite lower_char_idem, IH. Qed.

Lemma poll_transition_lower (state : string) :
  poll_transition (str_lower state) = poll_transition state.
Proof.
  unfold poll_transition, is_success_state, is_failure_state.
  by rewrite str_lower_idem.
Qed.

Lemma poll_transition_succeeded (state : string) :
  poll_transition state = Succeeded ↔ str_lower state ∈ success_states.
Proof.
  unfold poll_transition, is_success_state, is_failure_state.
  repeat case_bool_decide; naive_solver.
Qed.

Lemma success_failure_disjoint (s : string) :
  s ∈ success_states → s ∉ failure_states.
Proof.
  unfold success_states, failure_states. intros Hs Hf.
  rewrite !elem_of_cons, elem_of_nil in Hs, Hf.
  destruct Hs as [-> | [-> | [-> | []]]];
    destruct Hf as [? | [? | [? | []]]]; discriminate.
Qed.

Lemma poll_transition_failed (state : string) :
  poll_transition state = Failed ↔ str_lower state ∈ failure_states.
Proof.
  unfold poll_transition, is_success_state, is_failure_state.
  repeat case_bool_decide; split; try done.
  intros Hf. by apply success_failure_disjoint in Hf.
Qed.

Lemma poll_transition_polling (state : string) :
  poll_transition state = Polling ↔
  ((str_lower state ∉ success_states) ∧ (str_lower state ∉ failure_states)).
Proof.
  unfold poll_transition, is_success_state, is_failure_state.
  repeat case_bool_decide; split; try done; intros [? ?]; done.
Qed.

Lemma poll_transition_not_timed_out (state : string) : poll_transition state ≠ TimedOut.
Proof. unfold poll_transition. by repeat case_match. Qed.

Section WaitFacts.
Context (w : ControlPlane) (volume_name job_id : string) (timeout start_time : Z).
Local Open Scope Z_scope.

Local Abbreviation loop := (wait_loop w volume_name job_id timeout start_time).
Local Abbreviation body := (poll_turn w volume_name job_id).

(** The loop, one turn unrolled. *)
Lemma wait_loop_turn now n last_percent last_log_time lg :
  loop now n last_percent last_log_time lg =
  if now - start_time <? timeout then
    let '(ret, last_percent, last_log_time, lg) :=
      body now n last_percent last_log_time lg in
    match ret with
    | Some b =>
        {| wait_result := b; wait_polls := S n;
           wait_end := now + Z.of_N (job_latency w job_id n); wait_log := lg |}
    | None =>
        loop (now + Z.of_N (job_latency w job_id n) + poll_sleep) (S n)
             last_percent last_log_time lg
    end
  else
    {| wait_result := false; wait_polls := n; wait_end := now;
       wait_log := lg ++ [LogMoveTimedOut volume_name timeout] |}.
Proof.
  rewrite wait_loop_equation_1.
  destruct (Z_lt_dec (now - start_time) timeout) as [Hlt|Hge]; simpl.
  - apply Z.ltb_lt in Hlt. rewrite Hlt. by repeat case_match.
  - apply Z.nlt_ge, Z.ltb_ge in Hge. by rewrite Hge.
Qed.

(** What a turn returns is decided by the state string alone. *)
Lemma poll_turn_ret now n last_percent last_log_time lg :
  (body now n last_percent last_log_time lg).1.1.1 =
  match poll_transition (get_move_status w volume_name job_id n).1.1 with
  | Succeeded => Some true
  | Failed => Some false
  | _ => None
  end.
Proof.
  unfold poll_turn, poll_transition.
  destruct (get_move_status w volume_name job_id n) as [[state pc] errs]; simpl.
  by repeat case_match.
Qed.

(** The last line a returning turn logs. *)
Lemma poll_turn_last now n last_percent last_log_time lg b :
  (body now n last_percent last_log_time lg).1.1.1 = Some b →
  last (body now n last_percent last_log_time lg).2 =
  Some (if b then LogMoveCompleted volume_name else LogMoveFailed volume_name).
Proof.
  unfold poll_turn.
  destruct (get_move_status w volume_name job_id n) as [[state pc] errs]; simpl.
  repeat case_match; simpl; intros ?; simplify_eq; by rewrite last_snoc.
Qed.

(** A turn only adds lines. *)
Lemma poll_turn_log_prefix now n last_percent last_log_time lg :
  lg `prefix_of` (body now n last_percent last_log_time lg).2.
Proof.
  unfold poll_turn.
  destruct (get_move_status w volume_name job_id n) as [[state pc] errs]; simpl.
  repeat case_match; simpl; repeat apply prefix_app_r; done.
Qed.

(** A query answered in the success class ends the wait with [True]. *)
Lemma wait_loop_success now n last_percent last_log_time lg :
  now - start_time < timeout →
  poll_transition (get_move_status w volume_name job_id n).1.1 = Succeeded →
  let r := loop now n last_percent last_log_time lg in
  wait_result r = true ∧ wait_polls r = S n ∧
  wait_end r = now + Z.of_N (job_latency w job_id n) ∧
  final_state r = Succeeded.
Proof.
  intros Hlt Hcls. rewrite wait_loop_turn.
  apply Z.ltb_lt in Hlt. rewrite Hlt.
  pose proof (poll_turn_ret now n last_percent last_log_time lg) as Hret.
  pose proof (poll_turn_last now n last_percent last_log_time lg true) as Hlast.
  rewrite Hcls in Hret.
  destruct (body now n last_percent last_log_time lg) as [[[ret lp] llt] lg'].
  simpl in *. subst ret. unfold final_state. simpl. by rewrite Hlast.
Qed.

(** A query answered in the failure class ends the wait with [False],
    reported as a failure and not as a timeout. *)
Lemma wait_loop_failure now n last_percent last_log_time lg :
  now - start_time < timeout →
  poll_transition (get_move_status w volume_name job_id n).1.1 = Failed →
  let r := loop now n last_percent last_log_time lg in
  wait_result r = false ∧ wait_polls r = S n ∧
  wait_end r = now + Z.of_N (job_latency w job_id n) ∧
  final_state r = Failed.
Proof.
  intros Hlt Hcls. rewrite wait_loop_turn.
  apply Z.ltb_lt in Hlt. rewrite Hlt.
  pose proof (poll_turn_ret now n last_percent last_log_time lg) as Hret.
  pose proof (poll_turn_last now n last_percent last_log_time lg false) as Hlast.
  rewrite Hcls in Hret.
  destruct (body now n last_percent last_log_time lg) as [[[ret lp] llt] lg'].
  simpl in *. subst ret. unfold final_state. simpl. by rewrite Hlast.
Qed.

(** Any other answer sleeps 30 seconds and queries again. *)
Lemma wait_loop_polling now n last_percent last_log_time lg :
  now - start_time < timeout →
  poll_transition (get_move_status w volume_name job_id n).1.1 = Polling →
  ∃ last_percent' last_log_time' lg',
    lg `prefix_of` lg' ∧
    loop now n last_percent last_log_time lg =
    loop (now + Z.of_N (job_latency w job_id n) + poll_sleep) (S n)
         last_percent' last_log_time' lg'.
Proof.
  intros Hlt Hcls. rewrite wait_loop_turn.
  apply Z.ltb_lt in Hlt. rewrite Hlt.
  pose proof (poll_turn_ret now n last_percent last_log_time lg) as Hret.
  pose proof (poll_turn_log_prefix now n last_percent last_log_time lg) as Hpre.
  rewrite Hcls in Hret.
  destruct (body now n last_percent last_log_time lg) as [[[ret lp] llt] lg'].
  simpl in *. subst ret. by exists lp, llt, lg'.
Qed.

(** Past the timeout the loop is left: [False], reported as a timeout. *)
Lemma wait_loop_timed_out now n last_percent last_log_time lg :
  timeout ≤ now - start_time →
  let r := loop now n last_percent last_log_time lg in
  wait_result r = false ∧ wait_polls r = n ∧ wait_end r = now ∧
  final_state r = TimedOut.
Proof.
  intros Hge. rewrite wait_loop_turn.
  apply Z.ltb_ge in Hge. rewrite Hge. unfold final_state. simpl.
  by rewrite last_snoc.
Qed.
End WaitFacts.

(** An exception of the status query reads as the state ["error"], which is
    in the failure class. *)
Lemma get_move_status_raises w volume_name job_id n :
  job_reply w job_id n = PollRaises →
  get_move_status w volume_name job_id n =
    ("error", 0%Z, [LogStatusError volume_name job_id]).
Proof. unfold get_move_status. by intros ->. Qed.

Lemma get_move_status_info w volume_name job_id n state progress :
  job_reply w job_id n = JobInfo state progress →
  (get_move_status w volume_name job_id n).1.1 = state.
Proof. unfold get_move_status. by intros ->. Qed.

(** What a wait returns, how many queries it makes and how long it takes do
    not depend on the clock at its start, nor on what was logged before. *)
Lemma wait_loop_shift (cp : ControlPlane) (volume_name job_id : string)
    (timeout d : Z) start_time now n lp llt lg lp' llt' lg' :
  let r := wait_loop cp volume_name job_id timeout start_time now n lp llt lg in
  let r' := wait_loop cp volume_name job_id timeout (start_time + d) (now + d) n
              lp' llt' lg' in
  wait_result r' = wait_result r ∧ wait_polls r' = wait_polls r ∧
  wait_end r' = (wait_end r + d)%Z.
Proof.
  remember (Z.to_nat (timeout - (now - start_time))) as m eqn:Hm.
  revert now n lp llt lg lp' llt' lg' Hm.
  induction m as [m IH] using lt_wf_ind.
  intros now n lp llt lg lp' llt' lg' ->. cbv zeta.
  rewrite (wait_loop_turn cp volume_name job_id timeout start_time).
  rewrite (wait_loop_turn cp volume_name job_id timeout (start_time + d)%Z).
  replace (now + d - (start_time + d))%Z with (now - start_time)%Z by lia.
  destruct (Z.ltb_spec (now - start_time) timeout) as [Hlt|Hge]; [|simpl; done].
  pose proof (poll_turn_ret cp volume_name job_id now n lp llt lg) as H1.
  pose proof (poll_turn_ret cp volume_name job_id (now + d)%Z n lp' llt' lg') as H2.
  destruct (poll_turn cp volume_name job_id now n lp llt lg) as [[[ret a] b] c].
  destruct (poll_turn cp volume_name job_id (now + d)%Z n lp' llt' lg')
    as [[[ret' a'] b'] c'].
  simpl in H1, H2. rewrite <- H1 in H2. subst ret'.
  destruct ret as [res|]; simpl; [split_and!; [done|done|lia]|].
  replace (now + d + Z.of_N (job_latency cp job_id n) + poll_sleep)%Z
    with (now + Z.of_N (job_latency cp job_id n) + poll_sleep + d)%Z by lia.
  eapply IH; [|reflexivity]. unfold poll_sleep. lia.
Qed.

(** So a worker returns the same, after the same number of seconds, whenever
    it is started and whatever the shared dictionaries hold. *)
Lemma process_volume_move_shift (cp : ControlPlane)
    (volume_name dest_aggr cutover_action : string) (cutover_window timeout : Z)
    (now : Z) (sh : Shared) :
  let r0 := process_volume_move cp volume_name dest_aggr cutover_action
              cutover_window timeout 0 {| active_moves := ∅; move_results := ∅ |} in
  let r := process_volume_move cp volume_name dest_aggr cutover_action
             cutover_window timeout now sh in
  wr_result r = wr_result r0 ∧ wr_polls r = wr_polls r0 ∧
  wr_end r = (wr_end r0 + now)%Z.
Proof.
  unfold process_volume_move.
  destruct (start_move cp volume_name dest_aggr cutover_action cutover_window)
    as [[|] result]; simpl; [|split_and!; [done|done|lia]].
  unfold wait_for_move_completion.
  pose proof (wait_loop_shift cp volume_name result timeout now
                (0 + Z.of_N (start_latency cp volume_name))
                (0 + Z.of_N (start_latency cp volume_name)) 0
                (-1) 0 [] (-1) 0 []) as H.
  cbv zeta in H.
  replace (0 + Z.of_N (start_latency cp volume_name) + now)%Z
    with (now + Z.of_N (start_latency cp volume_name))%Z in H by lia.
  exact H.
Qed.

(** * Properties of the dispatcher *)

(** ** The dictionary *)

Lemma dict_set_keys d k v :
  (dict_set d k v).*1 = if decide (k ∈ d.*1) then d.*1 else d.*1 ++ [k].
Proof.
  induction d as [|[k' v'] d IH]; csimpl.
  - done.
  - destruct (decide (k' = k)) as [->|Hne]; csimpl.
    + by rewrite decide_True by (apply elem_of_cons; by left).
    + rewrite IH. destruct (decide (k ∈ d.*1)) as [Hin|Hnin].
      * by rewrite decide_True by (apply elem_of_cons; by right).
      * rewrite decide_False; [done|].
        rewrite elem_of_cons. intros [->|?]; done.
Qed.

Lemma dict_del_keys d k : (dict_del d k).*1 = filter (λ x, x ≠ k) d.*1.
Proof.
  unfold dict_del. induction d as [|[k' v'] d IH]; [done|].
  rewrite fmap_cons, !filter_cons. csimpl.
  destruct (decide (k' ≠ k)); csimpl; [by f_equal|done].
Qed.

Lemma dict_set_nonempty d k v : dict_set d k v ≠ [].
Proof. destruct d as [|[k' v'] d]; simpl; [done|]. by case_decide. Qed.

Lemma dict_set_length d k v :
  length (dict_set d k v) = if decide (k ∈ d.*1) then length d else S (length d).
Proof.
  rewrite <- (length_fmap fst (dict_set d k v)), dict_set_keys.
  case_decide; rewrite ?length_app, length_fmap; simpl; lia.
Qed.

Lemma dict_set_NoDup d k v : NoDup d.*1 → NoDup (dict_set d k v).*1.
Proof.
  intros Hnd. rewrite dict_set_keys. case_decide; [done|].
  apply NoDup_app. split_and!; [done| |apply NoDup_singleton].
  intros x Hx Hx'. apply list_elem_of_singleton in Hx'. by subst.
Qed.

Lemma dict_del_NoDup d k : NoDup d.*1 → NoDup (dict_del d k).*1.
Proof. intros Hnd. rewrite dict_del_keys. by apply NoDup_filter. Qed.

Lemma filter_ne_id (l : list string) k : k ∉ l → filter (λ x, x ≠ k) l = l.
Proof.
  induction l as [|x l IH]; intros Hnin; [done|].
  apply not_elem_of_cons in Hnin as [Hne Hnin].
  rewrite filter_cons, decide_True by done. by rewrite IH.
Qed.

Lemma filter_ne_length (l : list string) k :
  NoDup l → k ∈ l → S (length (filter (λ x, x ≠ k) l)) = length l.
Proof.
  induction l as [|x l IH]; intros Hnd Hin.
  - by apply elem_of_nil in Hin.
  - apply NoDup_cons in Hnd as [Hx Hnd]. rewrite filter_cons.
    destruct (decide (x ≠ k)) as [Hne|Heq]; simpl.
    + apply elem_of_cons in Hin as [->|Hin]; [done|]. by rewrite IH.
    + apply dec_stable in Heq. subst x. by rewrite filter_ne_id.
Qed.

Lemma dict_del_length d k :
  NoDup d.*1 → k ∈ d.*1 → S (length (dict_del d k)) = length d.
Proof.
  intros Hnd Hin. rewrite <- (length_fmap fst (dict_del d k)), dict_del_keys.
  rewrite filter_ne_length by done. by rewrite length_fmap.
Qed.

Lemma dict_del_absent d k : k ∉ d.*1 → dict_del d k = d.
Proof.
  unfold dict_del. induction d as [|[k' v'] d IH]; intros Hnin; [done|].
  csimpl in Hnin. apply not_elem_of_cons in Hnin as [Hne Hnin].
  rewrite filter_cons. simpl. rewrite decide_True by done. by rewrite IH.
Qed.

Lemma dict_set_elem d k v k' f :
  (k', f) ∈ dict_set d k v → (k', f) = (k, v) ∨ (k', f) ∈ d.
Proof.
  induction d as [|[k0 v0] d IH]; simpl.
  - intros ?%list_elem_of_singleton. by left.
  - case_decide; subst.
    + intros [->|?]%elem_of_cons; [by left|]. right. by apply elem_of_cons; right.
    + intros [->|?]%elem_of_cons.
      * right. apply elem_of_cons; by left.
      * destruct (IH H0) as [?|?]; [by left|]. right. apply elem_of_cons; by right.
Qed.

Lemma dict_del_elem d k k' f : (k', f) ∈ dict_del d k → (k', f) ∈ d.
Proof. unfold dict_del. by intros [_ ?]%list_elem_of_filter. Qed.

(** ** The log *)

Lemma started_snoc lg e :
  started (lg ++ [e]) =
  started lg ++ match e with LogStarted v _ _ => [v] | _ => [] end.
Proof. unfold started. rewrite omap_app. by destruct e. Qed.

Lemma finished_snoc lg e :
  finished (lg ++ [e]) =
  finished lg ++ match e with LogSuccess v | LogFailed v => [v] | _ => [] end.
Proof. unfold finished. rewrite omap_app. by destruct e. Qed.

Lemma active_after_snoc lg e :
  active_after (lg ++ [e]) = active_step (active_after lg) e.
Proof. unfold active_after. by rewrite fold_left_app. Qed.

Lemma prefix_snoc_cases {A} (p l : list A) (x : A) :
  p `prefix_of` l ++ [x] → p `prefix_of` l ∨ p = l ++ [x].
Proof.
  intros [k Hk]. destruct k as [|y k _] using rev_ind.
  - right. by rewrite app_nil_r in Hk.
  - left. rewrite app_assoc in Hk. apply app_inj_tail in Hk as [-> _].
    by apply prefix_app_r.
Qed.


Lemma NoDup_extract (l : list string) v :
  NoDup l → v ∈ l → l ≡ₚ v :: filter (λ x, x ≠ v) l.
Proof.
  induction l as [|x l IH]; intros Hnd Hin.
  - by apply elem_of_nil in Hin.
  - apply NoDup_cons in Hnd as [Hx Hnd]. rewrite filter_cons.
    destruct (decide (x ≠ v)) as [Hne|Heq].
    + apply elem_of_cons in Hin as [->|Hin]; [done|].
      rewrite (IH Hnd Hin) at 1. apply Permutation_swap.
    + apply dec_stable in Heq. subst x. by rewrite filter_ne_id.
Qed.

(** ** The invariant is kept by every update *)

Section Invariant.
Context (w : ControlPlane) (dest_aggr cutover_action : string) (cutover_window : Z).
Context (K : nat) (vl : list string).

Local Abbreviation Inv := (SchedInv w dest_aggr cutover_action cutover_window K vl).
Local Abbreviation submit' := (submit w dest_aggr cutover_action cutover_window).
Local Abbreviation result := (worker_result w dest_aggr cutover_action cutover_window).

Lemma submit_result t v : fut_result (submit' t v) = result v.
Proof. reflexivity. Qed.

Lemma inv_init : Inv K vl [] [] 0 [] [].
Proof.
  constructor; try done; simpl; try lia.
  - constructor.
  - intros p ->%prefix_nil_inv. simpl. lia.
  - intros k f Hin. by apply elem_of_nil in Hin.
  - intros v. split; intros Hin; by apply elem_of_nil in Hin.
Qed.

Lemma inv_weaken c pending d comp sc failed lg :
  Inv (S c) pending d comp sc failed lg → Inv c pending d comp sc failed lg.
Proof. intros []. constructor; try done; lia. Qed.

(** [in_progress[v] = future] followed by its "Started" line. *)
Lemma inv_start c v rest d comp sc failed lg t k total :
  Inv (S c) (v :: rest) d comp sc failed lg →
  Inv c rest (dict_set d v (submit' t v)) comp sc failed
      (lg ++ [LogStarted v k total]).
Proof.
  intros [Hkeys Hact Hslots Hbud Hpre Hfifo Hcomp Hhon Hfail Hsucc Hlines Hperm].
  assert (Hlen : length (dict_set d v (submit' t v)) ≤ S (length d)).
  { rewrite dict_set_length. case_decide; lia. }
  assert (Hact' : (dict_set d v (submit' t v)).*1 =
                  active_after (lg ++ [LogStarted v k total])).
  { rewrite active_after_snoc, dict_set_keys, <- Hact. done. }
  constructor.
  - by apply dict_set_NoDup.
  - done.
  - lia.
  - rewrite started_snoc, finished_snoc, length_app, app_nil_r. simpl. lia.
  - intros p [Hp| ->]%prefix_snoc_cases; [by apply Hpre|].
    rewrite <- Hact', length_fmap, started_snoc, finished_snoc, length_app, app_nil_r.
    simpl. lia.
  - rewrite started_snoc, <- app_assoc. done.
  - by rewrite finished_snoc, app_nil_r.
  - intros k' f [Heq|Hin]%dict_set_elem; [|by apply Hhon].
    by simplify_eq.
  - done.
  - done.
  - intros v'. destruct (Hlines v') as [H1 H2].
    split; intros [Hin|Hin]%elem_of_app; auto;
      by apply list_elem_of_singleton in Hin.
  - intros Hnd. specialize (Hperm Hnd).
    assert (v ∉ d.*1) as Hnin.
    { rewrite <- Hfifo in Hnd. apply NoDup_app in Hnd as (_ & Hdisj & _).
      intros Hin. apply (Hdisj v); [|apply elem_of_cons; by left].
      rewrite <- Hperm. apply elem_of_app; by left. }
    rewrite dict_set_keys, decide_False by done.
    rewrite started_snoc, <- Hperm.
    rewrite <- !app_assoc. apply Permutation_app_head, Permutation_app_comm.
Qed.

(** A terminal line followed by [del in_progress[v]] and the counters. *)
Lemma inv_finish c pending d comp sc failed lg v f :
  Inv c pending d comp sc failed lg → (v, f) ∈ d →
  Inv (S c) pending (dict_del d v) (comp ++ [v])
      (if fut_result f then sc + 1 else sc)
      (if fut_result f then failed else failed ++ [v])
      (lg ++ [if fut_result f then LogSuccess v else LogFailed v]).
Proof.
  intros [Hkeys Hact Hslots Hbud Hpre Hfifo Hcomp Hhon Hfail Hsucc Hlines Hperm] Hin.
  assert (Hk : v ∈ d.*1) by (apply list_elem_of_fmap; by exists (v, f)).
  pose proof (dict_del_length d v Hkeys Hk) as Hlen.
  pose proof (Hhon v f Hin) as Hres.
  set (e := if fut_result f then LogSuccess v else LogFailed v).
  assert (Hact' : (dict_del d v).*1 = active_after (lg ++ [e])).
  { rewrite active_after_snoc, dict_del_keys, <- Hact. unfold e. by destruct (fut_result f). }
  assert (Hfin : finished (lg ++ [e]) = finished lg ++ [v]).
  { rewrite finished_snoc. unfold e. by destruct (fut_result f). }
  assert (Hsta : started (lg ++ [e]) = started lg).
  { rewrite started_snoc. unfold e. destruct (fut_result f); by rewrite app_nil_r. }
  constructor.
  - by apply dict_del_NoDup.
  - done.
  - lia.
  - rewrite Hsta, Hfin, length_app. simpl. lia.
  - intros p [Hp| ->]%prefix_snoc_cases; [by apply Hpre|].
    rewrite <- Hact', length_fmap, Hsta, Hfin, length_app. simpl. lia.
  - by rewrite Hsta.
  - by rewrite Hfin, Hcomp.
  - intros k' f' Hin'%dict_del_elem. by apply Hhon.
  - rewrite filter_app, <- Hfail, filter_cons, filter_nil.
    rewrite <- Hres. destruct (fut_result f).
    + rewrite decide_False by done. by rewrite app_nil_r.
    + by rewrite decide_True by done.
  - rewrite filter_app, length_app, <- Hsucc, filter_cons, filter_nil.
    rewrite <- Hres. destruct (fut_result f).
    + by rewrite decide_True by done.
    + rewrite decide_False by done. simpl. lia.
  - intros v'. destruct (Hlines v') as [H1 H2]. unfold e.
    split; intros [Hin'|Hin']%elem_of_app; auto;
      apply list_elem_of_singleton in Hin'; destruct (fut_result f) eqn:E;
      simplify_eq; congruence.
  - intros Hnd. rewrite Hsta, <- (Hperm Hnd), dict_del_keys.
    rewrite (NoDup_extract d.*1 v Hkeys Hk) at 2.
    rewrite app_assoc. rewrite (Permutation_app_comm _ [v]). done.
Qed.
End Invariant.

Section Loops.
Context (w : ControlPlane) (dest_aggr cutover_action : string) (cutover_window : Z).
Context (K : nat) (vl : list string).

Local Abbreviation Inv := (SchedInv w dest_aggr cutover_action cutover_window K vl).
Local Abbreviation SInv := (state_inv w dest_aggr cutover_action cutover_window K vl).
Local Abbreviation submit' := (submit w dest_aggr cutover_action cutover_window).
Local Abbreviation seed' := (seed w dest_aggr cutover_action cutover_window).
Local Abbreviation refill_one' := (refill_one w dest_aggr cutover_action cutover_window).
Local Abbreviation refill' := (refill w dest_aggr cutover_action cutover_window).
Local Abbreviation turn' := (turn w dest_aggr cutover_action cutover_window).
Local Abbreviation main_loop' := (main_loop w dest_aggr cutover_action cutover_window).
Local Abbreviation start' := (scheduler_start w dest_aggr cutover_action cutover_window).

Lemma inv_weaken_by c c' pending d comp sc failed lg :
  Inv (c' + c) pending d comp sc failed lg → Inv c pending d comp sc failed lg.
Proof. induction c' as [|c' IH]; [done|]. intros H. by apply IH, inv_weaken. Qed.

Lemma seed_inv total c vols rest i d lg :
  Inv (length vols + c) (vols ++ rest) d [] 0 [] lg →
  Inv c rest (seed' total i vols d lg).1 [] 0 [] (seed' total i vols d lg).2.
Proof.
  revert i d lg. induction vols as [|v vols IH]; intros i d lg H; [done|].
  simpl. apply IH. by apply inv_start.
Qed.

Lemma scheduler_start_inv : SInv 0 (start' vl K).
Proof.
  unfold scheduler_start, state_inv.
  pose proof (seed_inv (length vl) 0 (take K vl) (drop K vl) 0 [] []) as H.
  destruct (seed' (length vl) 0 (take K vl) [] []) as [d lg]. simpl in *.
  apply H. rewrite take_drop.
  apply (inv_weaken_by _ (K - length (take K vl))).
  replace (K - length (take K vl) + (length (take K vl) + 0)) with K
    by (rewrite length_take; lia).
  apply inv_init.
Qed.

Lemma reap_fold_inv t todo st cn :
  NoDup todo.*1 → todo ⊆ in_progress st → SInv (length cn) st →
  SInv (length (fold_left (reap_one t) todo (st, cn)).2)
       (fold_left (reap_one t) todo (st, cn)).1.
Proof.
  revert st cn. induction todo as [|[v f] todo IH]; intros st cn Hnd Hsub H; [done|].
  csimpl in Hnd. apply NoDup_cons in Hnd as [Hv Hnd].
  simpl. destruct (fut_ready f <=? t).
  - apply IH; [done| |].
    + intros [k' f'] Hin. simpl. apply list_elem_of_filter. split.
      * simpl. intros ->. apply Hv. apply list_elem_of_fmap. by exists (v, f').
      * apply Hsub. apply elem_of_cons; by right.
    + unfold state_inv. simpl. rewrite length_app. simpl.
      rewrite Nat.add_1_r. apply inv_finish; [done|].
      apply Hsub. apply elem_of_cons; by left.
  - apply IH; [done| |done].
    intros x Hin. apply Hsub. apply elem_of_cons; by right.
Qed.

Lemma reap_inv t st :
  SInv 0 st → SInv (length (reap t st).2) (reap t st).1.
Proof.
  intros H. unfold reap. apply (reap_fold_inv t _ st []); [|done|done].
  by destruct H.
Qed.

Lemma refill_inv total t cn st :
  SInv (length cn) st → SInv 0 (refill' total t st cn).
Proof.
  revert st. induction cn as [|x cn IH]; intros st H; [done|].
  unfold refill. simpl. apply IH. unfold refill_one.
  unfold state_inv in H. simpl in H.
  destruct (remaining_volumes st) as [|next rest] eqn:Hrem.
  - unfold state_inv. rewrite Hrem. by apply inv_weaken.
  - unfold state_inv. simpl. by apply inv_start.
Qed.

Lemma turn_inv total t st : SInv 0 st → SInv 0 (turn' total t st).
Proof.
  intros H. unfold turn. pose proof (reap_inv t st H) as Hr.
  destruct (reap t st) as [st1 cn]. by apply refill_inv.
Qed.

Lemma main_loop_inv fuel total t st :
  SInv 0 st → SInv 0 (main_loop' fuel total t st).1.
Proof.
  revert t st. induction fuel as [|fuel IH]; intros t st H; simpl.
  - by destruct (in_progress st).
  - destruct (in_progress st) eqn:E; [done|]. apply IH. by apply turn_inv.
Qed.
End Loops.

(** ** The log only grows; the loop ends with nothing pending *)

Section Progress.
Context (w : ControlPlane) (dest_aggr cutover_action : string) (cutover_window : Z).

Local Abbreviation submit' := (submit w dest_aggr cutover_action cutover_window).
Local Abbreviation seed' := (seed w dest_aggr cutover_action cutover_window).
Local Abbreviation refill_one' := (refill_one w dest_aggr cutover_action cutover_window).
Local Abbreviation refill' := (refill w dest_aggr cutover_action cutover_window).
Local Abbreviation turn' := (turn w dest_aggr cutover_action cutover_window).
Local Abbreviation main_loop' := (main_loop w dest_aggr cutover_action cutover_window).
Local Abbreviation start' := (scheduler_start w dest_aggr cutover_action cutover_window).
Local Abbreviation seconds := (worker_seconds w dest_aggr cutover_action cutover_window).
Local Abbreviation pot_r' := (pot_r w dest_aggr cutover_action cutover_window).


Lemma seed_nonempty total i vols d lg :
  vols ≠ [] ∨ d ≠ [] → (seed' total i vols d lg).1 ≠ [].
Proof.
  revert i d lg. induction vols as [|v vols IH]; intros i d lg H; simpl.
  - by destruct H.
  - apply IH. right. apply dict_set_nonempty.
Qed.


Lemma reap_fold_count t todo st cn :
  length cn ≤ length (fold_left (reap_one t) todo (st, cn)).2.
Proof.
  revert st cn. induction todo as [|[v f] todo IH]; intros st cn; [done|].
  simpl. destruct (fut_ready f <=? t); [|apply IH].
  etrans; [|apply IH]. rewrite length_app. lia.
Qed.

Lemma reap_fold_same t todo st cn :
  length (fold_left (reap_one t) todo (st, cn)).2 = length cn →
  (fold_left (reap_one t) todo (st, cn)).1 = st.
Proof.
  revert st cn. induction todo as [|[v f] todo IH]; intros st cn; [done|].
  simpl. destruct (fut_ready f <=? t); [|apply IH].
  intros Heq. exfalso.
  match type of Heq with length (fold_left _ _ (?s, _)).2 = _ =>
    pose proof (reap_fold_count t todo s (cn ++ [v])) as Hle end.
  rewrite length_app in Hle. simpl in Hle. lia.
Qed.





Lemma refill_progress total t cn st :
  cn ≠ [] →
  in_progress (refill' total t st cn) ≠ [] ∨
  remaining_volumes (refill' total t st cn) = [].
Proof.
  revert st. induction cn as [|x cn IH]; intros st Hne; [done|].
  unfold refill. simpl. destruct cn as [|y cn].
  - simpl. unfold refill_one. destruct (remaining_volumes st) eqn:E.
    + by right.
    + left. simpl. apply dict_set_nonempty.
  - by apply IH.
Qed.

Lemma turn_drains total t st :
  in_progress st ≠ [] →
  in_progress (turn' total t st) = [] → remaining_volumes (turn' total t st) = [].
Proof.
  intros Hne. unfold turn, reap.
  pose proof (reap_fold_same t (in_progress st) st []) as Hsame.
  destruct (fold_left _ _ _) as [st1 cn]. simpl in Hsame.
  destruct cn as [|x cn].
  - rewrite Hsame by done. done.
  - intros Hemp. by destruct (refill_progress total t (x :: cn) st1).
Qed.

Lemma main_loop_drains fuel total t st :
  (in_progress st = [] → remaining_volumes st = []) →
  (main_loop' fuel total t st).2 = true →
  in_progress (main_loop' fuel total t st).1 = [] ∧
  remaining_volumes (main_loop' fuel total t st).1 = [].
Proof.
  revert t st. induction fuel as [|fuel IH]; intros t st H; simpl.
  - destruct (in_progress st) eqn:E; [|done]. intros _. simpl. auto.
  - destruct (in_progress st) eqn:E; [intros _; simpl; auto|].
    apply IH. apply turn_drains. by rewrite E.
Qed.

Lemma scheduler_start_drains vl K :
  0 < K → in_progress (start' vl K) = [] → remaining_volumes (start' vl K) = [].
Proof.
  intros HK. unfold scheduler_start.
  pose proof (seed_nonempty (length vl) 0 (take K vl) [] []) as H.
  destruct (seed' _ _ _ _ _) as [d lg]. simpl in *. intros ->.
  destruct vl as [|v vl]; [by rewrite drop_nil|].
  destruct K as [|K]; [lia|]. exfalso. apply H; [|done]. by left.
Qed.

(** ** The main loop ends *)

Lemma pot_d_cons t k f d :
  pot_d t ((k, f) :: d) = S (fut_ready f - t) + pot_d t d.
Proof. reflexivity. Qed.

Lemma pot_r_cons v rem : pot_r' (v :: rem) = S (seconds v) + pot_r' rem.
Proof. reflexivity. Qed.

Lemma pot_d_filter t d :
  pot_d (S t) (filter (λ kv, t < fut_ready kv.2) d) + length d ≤ pot_d t d.
Proof.
  induction d as [|[k f] d IH]; [done|].
  rewrite filter_cons. cbn [snd length]. case_decide.
  - rewrite !pot_d_cons. lia.
  - rewrite pot_d_cons. lia.
Qed.

Lemma pot_d_dict_set t d k f :
  pot_d t (dict_set d k f) ≤ pot_d t d + S (fut_ready f - t).
Proof.
  induction d as [|[k' f'] d IH]; cbn [dict_set].
  - rewrite pot_d_cons. unfold pot_d. simpl. lia.
  - case_decide; rewrite !pot_d_cons; lia.
Qed.

Lemma submit_ready t v : fut_ready (submit' t v) = t + seconds v.
Proof. reflexivity. Qed.

Lemma pot_refill total t cn st :
  pot_d (S t) (in_progress (refill' total t st cn))
    + pot_r' (remaining_volumes (refill' total t st cn))
  ≤ pot_d (S t) (in_progress st) + pot_r' (remaining_volumes st).
Proof.
  revert st. induction cn as [|x cn IH]; intros st; [done|].
  unfold refill. simpl. etrans; [apply IH|].
  unfold refill_one. destruct (remaining_volumes st) as [|v rest] eqn:E;
    [rewrite E; lia|].
  cbn [in_progress remaining_volumes].
  pose proof (pot_d_dict_set (S t) (in_progress st) v (submit' t v)) as H.
  rewrite submit_ready in H. rewrite pot_r_cons. lia.
Qed.

Lemma reap_fold_spec t todo pre st cn :
  NoDup (pre ++ todo).*1 →
  in_progress st = filter (λ kv, t < fut_ready kv.2) pre ++ todo →
  in_progress (fold_left (reap_one t) todo (st, cn)).1
    = filter (λ kv, t < fut_ready kv.2) (pre ++ todo) ∧
  remaining_volumes (fold_left (reap_one t) todo (st, cn)).1 = remaining_volumes st.
Proof.
  revert pre st cn. induction todo as [|[v f] todo IH]; intros pre st cn Hnd Hip.
  - simpl. by rewrite app_nil_r in *.
  - simpl. replace (pre ++ (v, f) :: todo) with ((pre ++ [(v, f)]) ++ todo) in *
      by (by rewrite <- app_assoc).
    destruct (fut_ready f <=? t) eqn:Hr.
    + apply Nat.leb_le in Hr.
      edestruct (IH (pre ++ [(v, f)])) as [H1 H2]; [done| |split; [exact H1|exact H2]].
      simpl. rewrite Hip.
      rewrite filter_app, filter_cons, filter_nil. simpl.
      rewrite decide_False by lia. rewrite app_nil_r.
      rewrite fmap_app, fmap_app in Hnd. csimpl in Hnd.
      apply NoDup_app in Hnd as (Hnd1 & Hdisj & Hnd2).
      apply NoDup_app in Hnd1 as (Hpre & Hdisj1 & _).
      unfold dict_del. rewrite filter_app, filter_cons. simpl.
      rewrite decide_False by (intros ?; done).
      fold (dict_del (filter (λ kv, t < fut_ready kv.2) pre) v).
      fold (dict_del todo v).
      rewrite !dict_del_absent; [done| |].
      * intros Hin. apply (Hdisj v); [|done]. apply elem_of_app. right.
        apply elem_of_cons; by left.
      * intros Hin. apply (Hdisj1 v); [|apply elem_of_cons; by left].
        apply list_elem_of_fmap in Hin as [[k' f'] [-> Hin]].
        apply list_elem_of_filter in Hin as [_ Hin].
        apply list_elem_of_fmap. by exists (k', f').
    + apply Nat.leb_gt in Hr.
      apply IH; [done|]. rewrite Hip.
      rewrite filter_app, filter_cons, filter_nil. simpl.
      rewrite decide_True by lia. by rewrite <- app_assoc.
Qed.

Lemma turn_potential total t st :
  NoDup (in_progress st).*1 →
  pot_d (S t) (in_progress (turn' total t st))
    + pot_r' (remaining_volumes (turn' total t st)) + length (in_progress st)
  ≤ pot_d t (in_progress st) + pot_r' (remaining_volumes st).
Proof.
  intros Hnd. unfold turn, reap.
  destruct (reap_fold_spec t (in_progress st) [] st [] Hnd eq_refl) as [Hip Hrem].
  destruct (fold_left _ _ _) as [st1 cn]. simpl in *.
  pose proof (pot_refill total t cn st1) as H1.
  pose proof (pot_d_filter t (in_progress st)) as H2.
  rewrite Hip, Hrem in H1. lia.
Qed.

Lemma main_loop_ends K vl fuel total t st :
  state_inv w dest_aggr cutover_action cutover_window K vl 0 st →
  pot_d t (in_progress st) + pot_r' (remaining_volumes st) ≤ fuel →
  (main_loop' fuel total t st).2 = true.
Proof.
  revert t st. induction fuel as [|fuel IH]; intros t st Hinv Hle; simpl.
  - destruct (in_progress st) as [|[k f] d] eqn:E; [done|].
    exfalso. rewrite pot_d_cons in Hle. lia.
  - destruct (in_progress st) as [|[k f] d] eqn:E; [done|].
    apply IH; [by apply turn_inv|].
    pose proof (turn_potential total t st) as H.
    rewrite E in H.
    assert (NoDup ((k, f) :: d).*1) as Hnd.
    { destruct Hinv as [Hk]. by rewrite E in Hk. }
    specialize (H Hnd). cbn [length] in H. lia.
Qed.

Lemma seed_potential total i vols d lg :
  pot_d 0 (seed' total i vols d lg).1 ≤ pot_d 0 d + pot_r' vols.
Proof.
  revert i d lg. induction vols as [|v vols IH]; intros i d lg; simpl.
  - lia.
  - etrans; [apply IH|].
    pose proof (pot_d_dict_set 0 d v (submit' 0 v)) as H.
    rewrite submit_ready in H. rewrite pot_r_cons. lia.
Qed.

Lemma pot_r_app l1 l2 : pot_r' (l1 ++ l2) = pot_r' l1 + pot_r' l2.
Proof.
  induction l1 as [|v l1 IH]; [done|].
  rewrite <- app_comm_cons, !pot_r_cons, IH. lia.
Qed.

Lemma scheduler_start_potential vl K :
  pot_d 0 (in_progress (start' vl K)) + pot_r' (remaining_volumes (start' vl K))
  ≤ pot_r' vl.
Proof.
  unfold scheduler_start.
  pose proof (seed_potential (length vl) 0 (take K vl) [] []) as H.
  destruct (seed' _ _ _ _ _) as [d lg]. simpl in *.
  rewrite <- (take_drop K vl) at 2. rewrite pot_r_app.
  change (pot_d 0 []) with 0 in H. lia.
Qed.
End Progress.

(** ** Whole runs *)

Lemma filter_result_split (f : string → bool) (l : list string) :
  length (filter (λ v, f v = true) l) + length (filter (λ v, f v = false) l)
  = length l.
Proof.
  induction l as [|x l IH]; [done|].
  rewrite !filter_cons. destruct (f x) eqn:E.
  - rewrite decide_True, decide_False by done. simpl. lia.
  - rewrite decide_False, decide_True by done. simpl. lia.
Qed.


Lemma finished_elem lg v :
  v ∈ finished lg → LogSuccess v ∈ lg ∨ LogFailed v ∈ lg.
Proof.
  induction lg as [|e lg IH]; simpl.
  - intros Hin. by apply elem_of_nil in Hin.
  - unfold finished. destruct e as [v' k total|v'|v']; csimpl.
    + intros Hin. destruct (IH Hin); [left|right]; apply elem_of_cons; by right.
    + intros [->|Hin]%elem_of_cons; [left; apply elem_of_cons; by left|].
      destruct (IH Hin); [left|right]; apply elem_of_cons; by right.
    + intros [->|Hin]%elem_of_cons; [right; apply elem_of_cons; by left|].
      destruct (IH Hin); [left|right]; apply elem_of_cons; by right.
Qed.


Section Runs.
Context (w : World) (dest_aggr cutover_action : string) (cutover_window : Z).

Local Abbreviation run := (scheduler_run (plane w) dest_aggr cutover_action cutover_window).
Local Abbreviation pvl := (process_volume_list w dest_aggr cutover_action cutover_window).
Local Abbreviation SInv := (state_inv (plane w) dest_aggr cutover_action cutover_window).
Local Abbreviation result := (worker_result (plane w) dest_aggr cutover_action cutover_window).
Local Abbreviation needed := (fuel_needed (plane w) dest_aggr cutover_action cutover_window).

Lemma scheduler_run_inv fuel vl K : SInv K vl 0 (run fuel vl K).1.
Proof. unfold scheduler_run. apply main_loop_inv, scheduler_start_inv. Qed.

Lemma scheduler_run_drained fuel vl K :
  0 < K → (run fuel vl K).2 = true →
  in_progress (run fuel vl K).1 = [] ∧ remaining_volumes (run fuel vl K).1 = [].
Proof.
  intros HK. unfold scheduler_run. apply main_loop_drains.
  by apply scheduler_start_drains.
Qed.

Lemma scheduler_run_ends fuel vl K :
  needed vl ≤ fuel → (run fuel vl K).2 = true.
Proof.
  intros Hle. unfold scheduler_run.
  apply (main_loop_ends (plane w) dest_aggr cutover_action cutover_window K vl).
  - apply scheduler_start_inv.
  - etrans; [apply scheduler_start_potential|done].
Qed.


(** What [Finished] stands for. *)
Lemma process_volume_list_finished fuel vl K timeout ign ret sum st :
  pvl fuel vl K timeout ign = Some (Finished ret sum st) →
  (0 < K)%Z ∧ run fuel vl (Z.to_nat K) = (st, true) ∧
  ret = (success_count st =? length vl) ∧
  sum = final_report (length vl) st.
Proof.
  unfold process_volume_list.
  destruct (negb ign && negb _); [done|].
  destruct (Z.leb_spec K 0) as [Hle|Hlt]; [done|].
  destruct (run fuel vl (Z.to_nat K)) as [st' [|]]; [|done].
  intros [= <- <- <-]. done.
Qed.


(** The state a run over distinct targets ends in. *)
Lemma finished_run_facts fuel vl K st :
  0 < K → run fuel vl K = (st, true) →
  started (sched_log st) = vl ∧
  finished (sched_log st) = completed_volumes st ∧
  success_count st + length (failed_volumes st) = length (completed_volumes st) ∧
  failed_volumes st = filter (λ v, result v = false) (completed_volumes st) ∧
  (∀ v, (LogSuccess v ∈ sched_log st → result v = true) ∧
        (LogFailed v ∈ sched_log st → result v = false)) ∧
  (NoDup vl → completed_volumes st ≡ₚ vl).
Proof.
  intros HK Hrun.
  pose proof (scheduler_run_inv fuel vl K) as Hinv.
  pose proof (scheduler_run_drained fuel vl K HK) as Hdr.
  rewrite Hrun in Hinv, Hdr. simpl in *.
  destruct (Hdr eq_refl) as [Hip Hrem].
  destruct Hinv as [_ _ _ _ _ Hfifo Hcomp _ Hfail Hsucc Hlines Hperm].
  rewrite Hrem, app_nil_r in Hfifo. rewrite Hip in Hperm. simpl in Hperm.
  split_and!; try done.
  - rewrite Hsucc, Hfail at 1. apply filter_result_split.
  - intros Hnd. by rewrite (Hperm Hnd), Hfifo.
Qed.
End Runs.


(** * The claims *)

(** C1 (as the code has it). A status query that raises is read as the
    state ["error"] with percent 0; ["error"] is in the failure class, so
    the wait ends at that very query with [False], reported as a failure:
    the job does not stay in [Polling] and the timeout plays no part. *)
Theorem poll_error_ends_the_wait (cp : ControlPlane) (volume_name job_id : string)
    (timeout start_time now : Z) (n : nat) (last_percent last_log_time : Z)
    (lg : list WorkerLog) :
  (now - start_time < timeout)%Z →
  job_reply cp job_id n = PollRaises →
  get_move_status cp volume_name job_id n
    = ("error", 0%Z, [LogStatusError volume_name job_id]) ∧
  poll_transition "error" = Failed ∧
  let r := wait_loop cp volume_name job_id timeout start_time now n
             last_percent last_log_time lg in
  wait_result r = false ∧ wait_polls r = S n ∧
  wait_end r = (now + Z.of_N (job_latency cp job_id n))%Z ∧
  final_state r = Failed.
Proof.
  intros Hlt Hraise.
  pose proof (get_move_status_raises cp volume_name job_id n Hraise) as Hst.
  split_and!; [done|done|].
  apply wait_loop_failure; [done|]. by rewrite Hst.
Qed.

(** The theorem on a job whose first status query raises. *)
Lemma poll_error_ends_the_wait_witness :
  (0 - 0 < 86400)%Z ∧ job_reply cp_poll_error "job-vol1" 0 = PollRaises ∧
  let r := wait_loop cp_poll_error "vol1" "job-vol1" 86400 0 0 0 (-1) 0 [] in
  wait_result r = false ∧ wait_polls r = 1 ∧ wait_end r = 0%Z ∧ final_state r = Failed.
Proof.
  split; [reflexivity|]. split; [reflexivity|].
  apply (poll_error_ends_the_wait cp_poll_error "vol1" "job-vol1" 86400 0 0 0 (-1) 0 []);
    reflexivity.
Defined.

(** C1, as stated, fails: with every status query raising and a timeout of
    24 hours, the first query already leaves [Polling] and the wait is over
    at second 0 with a failure. *)
Lemma poll_error_counterexample :
  let r := wait_for_move_completion cp_poll_error "vol1" "job-vol1" 86400 0 in
  poll_transition (get_move_status cp_poll_error "vol1" "job-vol1" 0).1.1 ≠ Polling ∧
  wait_polls r = 1 ∧ wait_end r = 0%Z ∧ wait_result r = false ∧
  final_state r = Failed.
Proof. vm_compute. split_and!; done. Qed.

(** C2 (as the code has it). The state string is lower-cased and compared
    with the six words as they stand: letter case is ignored, nothing is
    stripped. ["Complete"] and ["SUCCESS"] are in the success class;
    ["completed "] with a trailing blank is in neither class and leaves the
    job in [Polling]. A query in the success class ends the wait with
    [True], one in the failure class with [False], any other is followed by
    the sleep and the next query. *)
Theorem state_classification (state : string) :
  poll_transition (str_lower state) = poll_transition state ∧
  (poll_transition state = Succeeded
     ↔ str_lower state ∈ ["success"; "complete"; "completed"]) ∧
  (poll_transition state = Failed
     ↔ str_lower state ∈ ["failure"; "error"; "failed"]) ∧
  (poll_transition state = Polling
     ↔ str_lower state ∉
         ["success"; "complete"; "completed"; "failure"; "error"; "failed"]) ∧
  poll_transition "Complete" = Succeeded ∧
  poll_transition "SUCCESS" = Succeeded ∧
  poll_transition "completed " = Polling ∧
  ∀ (cp : ControlPlane) (volume_name job_id : string) (timeout start_time now : Z)
    (n : nat) (last_percent last_log_time : Z) (lg : list WorkerLog)
    (progress : option Z),
    (now - start_time < timeout)%Z →
    job_reply cp job_id n = JobInfo state progress →
    let r := wait_loop cp volume_name job_id timeout start_time now n
               last_percent last_log_time lg in
    match poll_transition state with
    | Succeeded => wait_result r = true ∧ wait_polls r = S n ∧ final_state r = Succeeded
    | Failed => wait_result r = false ∧ wait_polls r = S n ∧ final_state r = Failed
    | _ => ∃ last_percent' last_log_time' lg',
             r = wait_loop cp volume_name job_id timeout start_time
                   (now + Z.of_N (job_latency cp job_id n) + poll_sleep)%Z (S n)
                   last_percent' last_log_time' lg'
    end.
Proof.
  split_and!.
  - apply poll_transition_lower.
  - apply poll_transition_succeeded.
  - apply poll_transition_failed.
  - rewrite poll_transition_polling.
    change ["success"; "complete"; "completed"; "failure"; "error"; "failed"]
      with (success_states ++ failure_states).
    rewrite not_elem_of_app. done.
  - reflexivity.
  - reflexivity.
  - reflexivity.
  - intros cp volume_name job_id timeout start_time now n lp llt lg progress Hlt Hinfo.
    pose proof (get_move_status_info cp volume_name job_id n state progress Hinfo) as Hst.
    destruct (poll_transition state) eqn:Hcls; rewrite <- Hst in Hcls.
    + destruct (wait_loop_polling cp volume_name job_id timeout start_time
                  now n lp llt lg Hlt Hcls) as (lp' & llt' & lg' & _ & Heq).
      by exists lp', llt', lg'.
    + destruct (wait_loop_success cp volume_name job_id timeout start_time
                  now n lp llt lg Hlt Hcls) as (? & ? & ? & ?). done.
    + destruct (wait_loop_failure cp volume_name job_id timeout start_time
                  now n lp llt lg Hlt Hcls) as (? & ? & ? & ?). done.
    + by apply poll_transition_not_timed_out in Hcls.
Qed.

(** C2, as stated, fails on ["completed "]: the string is not in the
    success class, and a job that keeps answering it is polled until the
    timeout (here 60 seconds: two queries) and ends as a timeout. *)
Lemma trailing_space_counterexample :
  let r := wait_for_move_completion cp_trailing_space "vol1" "job-vol1" 60 0 in
  poll_transition "completed " ≠ Succeeded ∧
  wait_result r = false ∧ wait_polls r = 2 ∧ final_state r = TimedOut.
Proof. vm_compute. split_and!; done. Qed.

(** C6 (the code at the failing input). The timeout given to
    [process_volume_list] is not passed to the workers, which wait with the
    default of 86400 seconds. With 60 seconds configured and a job that
    answers ["running"] at seconds 0, 30, 60 and ["success"] at second 90:
    a wait with the configured bound gives up at second 60, while the run
    reports the target as moved and [main] exits with 0. No outcome of
    [process_volume_list] depends on its [timeout]. *)
Theorem configured_timeout_not_passed_on :
  final_state (wait_for_move_completion cp_slow "vol1" "job-vol1" 60 0) = TimedOut ∧
  wait_end (wait_for_move_completion cp_slow "vol1" "job-vol1" 60 0) = 60%Z ∧
  wr_result (process_volume_move cp_slow "vol1" "aggr1" "retry" 30 default_timeout 0
               {| active_moves := ∅; move_results := ∅ |}) = true ∧
  wr_end (process_volume_move cp_slow "vol1" "aggr1" "retry" 30 default_timeout 0
            {| active_moves := ∅; move_results := ∅ |}) = 90%Z ∧
  run_summary <$> process_volume_list (healthy cp_slow) "aggr1" "retry" 30 200 ["vol1"] 1 60 false
    = Some (Some {| total_processed := 1; successfully_moved := 1;
                    failed_to_move := 0; failed_list := [] |}) ∧
  main sorted_set_order (healthy cp_slow) 200 (sample_args None (Some ["vol1"]) 60) = Some 0 ∧
  ∀ w dest_aggr cutover_action cutover_window fuel volume_list max_concurrent
    timeout timeout' ignore_health_check,
    process_volume_list w dest_aggr cutover_action cutover_window fuel volume_list
      max_concurrent timeout ignore_health_check
    = process_volume_list w dest_aggr cutover_action cutover_window fuel volume_list
        max_concurrent timeout' ignore_health_check.
Proof.
  split_and!.
  - vm_compute. reflexivity.
  - vm_compute. reflexivity.
  - vm_compute. reflexivity.
  - vm_compute. reflexivity.
  - vm_compute. reflexivity.
  - vm_compute. reflexivity.
  - reflexivity.
Qed.

(** Closed decidable facts, by evaluation. *)
Ltac by_decide := apply (bool_decide_unpack _); vm_compute; exact I.





(** C4. At every point of every run the entries of [in_progress] are at
    most [max_concurrent]: after any number of turns of the main loop, and
    between any two updates within a turn (after every prefix of the log,
    whose lines go with the updates). A target is started only while fewer
    than [max_concurrent] started targets lack their terminal line; so the
    line that starts the (K+1)-th or a later target has a terminal line
    before it. *)
Theorem active_never_exceeds_bound (w : World) (dest_aggr cutover_action : string)
    (cutover_window : Z) (fuel : nat) (volume_list : list string) (K : nat) :
  let st := (scheduler_run (plane w) dest_aggr cutover_action cutover_window
               fuel volume_list K).1 in
  length (in_progress st) ≤ K ∧
  (in_progress st).*1 = active_after (sched_log st) ∧
  (∀ p, p `prefix_of` sched_log st → length (active_after p) ≤ K) ∧
  (∀ p v k total, p ++ [LogStarted v k total] `prefix_of` sched_log st →
     length (started p) < K + length (finished p) ∧
     (K ≤ length (started p) → finished p ≠ [])) ∧
  (∀ max_concurrent timeout ignore_health_check ret summary st',
     process_volume_list w dest_aggr cutover_action cutover_window fuel
       volume_list max_concurrent timeout ignore_health_check
       = Some (Finished ret summary st') →
     K = Z.to_nat max_concurrent → st' = st).
Proof.
  intros st.
  pose proof (scheduler_run_inv w dest_aggr cutover_action cutover_window
                fuel volume_list K) as [_ Hact Hslots _ Hpre _ _ _ _ _ _ _].
  fold st in Hact, Hslots, Hpre. split_and!.
  - lia.
  - done.
  - intros p Hp. by apply Hpre.
  - intros p v k total Hp. apply Hpre in Hp as [_ Hp].
    rewrite started_snoc, finished_snoc, app_nil_r, length_app in Hp.
    simpl in Hp. split; [lia|].
    intros HK Hnil. rewrite Hnil in Hp. simpl in Hp. lia.
  - intros mc timeout ign ret summary st' Hrun ->.
    apply process_volume_list_finished in Hrun as (_ & Hrun & _).
    unfold st. by rewrite Hrun.
Qed.

(** C5 (as the code has it). With the bypass flag not set and the health
    check answering [False], the call returns [False] at once: nothing is
    submitted and no report is made (no counts, no list of failed
    targets). With the bypass flag set the health check is not consulted:
    the outcome is the same whatever it would answer, and is never the
    pre-flight abort. *)
Theorem preflight_abort (w : World) (dest_aggr cutover_action : string)
    (cutover_window : Z) (fuel : nat) (volume_list : list string)
    (max_concurrent timeout : Z) :
  _check_destination_aggr_status w dest_aggr = false →
  (let r := process_volume_list w dest_aggr cutover_action cutover_window fuel
              volume_list max_concurrent timeout false in
   r = Some Aborted ∧ run_return <$> r = Some (Some false) ∧
   run_started <$> r = Some [] ∧ run_summary <$> r = Some None) ∧
  (∀ raises,
     process_volume_list (with_health_probe w raises) dest_aggr cutover_action
       cutover_window fuel volume_list max_concurrent timeout true
     = process_volume_list w dest_aggr cutover_action cutover_window fuel
         volume_list max_concurrent timeout true) ∧
  process_volume_list w dest_aggr cutover_action cutover_window fuel
    volume_list max_concurrent timeout true ≠ Some Aborted.
Proof.
  intros Hbad. split_and!.
  - unfold process_volume_list. rewrite Hbad. simpl. done.
  - intros raises. destruct w. reflexivity.
  - unfold process_volume_list. simpl.
    destruct (max_concurrent <=? 0)%Z; [done|].
    destruct (scheduler_run _ _ _ _ _ _ _) as [st [|]]; done.
Qed.

(** The theorem on a cluster whose health probe raises. *)
Lemma preflight_abort_witness :
  (let r := process_volume_list w_probe_raises "aggr1" "retry" 30 50
              ["vol1"; "vol2"] 4 86400 false in
   r = Some Aborted ∧ run_return <$> r = Some (Some false) ∧
   run_started <$> r = Some [] ∧ run_summary <$> r = Some None) ∧
  (∀ raises,
     process_volume_list (with_health_probe w_probe_raises raises) "aggr1" "retry"
       30 50 ["vol1"; "vol2"] 4 86400 true
     = process_volume_list w_probe_raises "aggr1" "retry" 30 50
         ["vol1"; "vol2"] 4 86400 true) ∧
  process_volume_list w_probe_raises "aggr1" "retry" 30 50
    ["vol1"; "vol2"] 4 86400 true ≠ Some Aborted.
Proof.
  apply (preflight_abort w_probe_raises "aggr1" "retry" 30 50 ["vol1"; "vol2"] 4 86400).
  reflexivity.
Defined.

(** C5, as stated, fails: the aborted run over two targets makes no report
    at all, so none with [failed = 2] and [succeeded = 0]. *)
Lemma preflight_abort_counterexample :
  ¬ ∃ r summary,
      process_volume_list w_probe_raises "aggr1" "retry" 30 50
        ["vol1"; "vol2"] 4 86400 false = Some r ∧
      run_summary r = Some summary ∧
      failed_to_move summary = 2 ∧ successfully_moved summary = 0.
Proof.
  intros (r & summary & Hrun & Hsum & _).
  vm_compute in Hrun. by simplify_eq.
Qed.

(** C7. A run over distinct targets that reaches its report has started
    every target exactly once, in the order of the list, and logged exactly
    one terminal line for each, the one its worker returned; the counts of
    the report add up to the number of targets, and the call returns [True]
    exactly when all of them were moved. *)
Theorem every_target_one_outcome (w : World) (dest_aggr cutover_action : string)
    (cutover_window : Z) (fuel : nat) (volume_list : list string)
    (max_concurrent timeout : Z) (ignore_health_check ret : bool)
    (summary : Summary) (st : Sched) :
  NoDup volume_list →
  process_volume_list w dest_aggr cutover_action cutover_window fuel volume_list
    max_concurrent timeout ignore_health_check = Some (Finished ret summary st) →
  started (sched_log st) = volume_list ∧
  NoDup (started (sched_log st)) ∧
  finished (sched_log st) ≡ₚ volume_list ∧
  NoDup (finished (sched_log st)) ∧
  completed_volumes st ≡ₚ volume_list ∧
  in_progress st = [] ∧ remaining_volumes st = [] ∧
  (∀ v, v ∈ volume_list →
     (LogSuccess v ∈ sched_log st
        ↔ worker_result (plane w) dest_aggr cutover_action cutover_window v = true) ∧
     (LogFailed v ∈ sched_log st
        ↔ worker_result (plane w) dest_aggr cutover_action cutover_window v = false)) ∧
  total_processed summary = length volume_list ∧
  successfully_moved summary + failed_to_move summary = length volume_list ∧
  failed_list summary
    = filter (λ v, worker_result (plane w) dest_aggr cutover_action cutover_window v
                   = false) (completed_volumes st) ∧
  (ret = true ↔ successfully_moved summary = length volume_list).
Proof.
  intros Hnd Hrun.
  apply process_volume_list_finished in Hrun as (HK & Hrun & -> & ->).
  assert (0 < Z.to_nat max_concurrent) as HK' by lia.
  destruct (scheduler_run_drained w dest_aggr cutover_action cutover_window
              fuel volume_list (Z.to_nat max_concurrent) HK') as [Hip Hrem];
    [by rewrite Hrun|].
  rewrite Hrun in Hip, Hrem. simpl in Hip, Hrem.
  apply finished_run_facts in Hrun as (Hsta & Hfin & Hcnt & Hfail & Hlines & Hperm);
    [|done].
  specialize (Hperm Hnd).
  assert (Hfinp : finished (sched_log st) ≡ₚ volume_list) by by rewrite Hfin.
  split_and!; try done.
  - by rewrite Hsta.
  - by rewrite Hfinp.
  - intros v Hv. destruct (Hlines v) as [Hs Hf].
    assert (v ∈ finished (sched_log st)) as Hin by by rewrite Hfinp.
    apply finished_elem in Hin.
    split; (split; [done|]); intros Hres; destruct Hin as [Hin|Hin]; try done.
    + apply Hf in Hin. congruence.
    + apply Hs in Hin. congruence.
  - simpl. rewrite Hcnt. by rewrite Hperm.
  - simpl. rewrite Nat.eqb_eq. done.
Qed.

(** The theorem on a run of four targets of which two fail. *)
Lemma every_target_one_outcome_witness :
  ∃ st,
    process_volume_list (healthy cp_volA_rejected) "aggr1" "retry" 30 50
      ["volA"; "volB"; "volC"; "volD"] 2 86400 false
      = Some (Finished false
                {| total_processed := 4; successfully_moved := 2;
                   failed_to_move := 2; failed_list := ["volA"; "volC"] |} st) ∧
    started (sched_log st) = ["volA"; "volB"; "volC"; "volD"] ∧
    finished (sched_log st) ≡ₚ ["volA"; "volB"; "volC"; "volD"] ∧
    (false = true ↔ 2 = 4).
Proof.
  eexists. split; [vm_compute; reflexivity|].
  match goal with |- context [sched_log ?s] => set (st := s) end.
  destruct (every_target_one_outcome (healthy cp_volA_rejected) "aggr1" "retry" 30 50
              ["volA"; "volB"; "volC"; "volD"] 2 86400 false false
              {| total_processed := 4; successfully_moved := 2;
                 failed_to_move := 2; failed_list := ["volA"; "volC"] |} st)
    as (H1 & _ & H2 & _ & _ & _ & _ & _ & _ & _ & _ & H3).
  - by_decide.
  - vm_compute. reflexivity.
  - split_and!; [exact H1|exact H2|exact H3].
Defined.


(** C9. Unless its own body raises, the health check answers [True]
    whatever the state of the destination: it queries nothing. A call of
    [process_volume_list] without the bypass flag then never takes the
    pre-flight abort, and does what the call with the flag does. *)
Theorem health_check_always_passes (w : World) (dest_aggr : string) :
  health_probe_raises w = false →
  _check_destination_aggr_status w dest_aggr = true ∧
  ∀ cutover_action cutover_window fuel volume_list max_concurrent timeout,
    process_volume_list w dest_aggr cutover_action cutover_window fuel
      volume_list max_concurrent timeout false ≠ Some Aborted ∧
    process_volume_list w dest_aggr cutover_action cutover_window fuel
      volume_list max_concurrent timeout false
    = process_volume_list w dest_aggr cutover_action cutover_window fuel
        volume_list max_concurrent timeout true.
Proof.
  intros Hprobe.
  assert (Hok : _check_destination_aggr_status w dest_aggr = true).
  { unfold _check_destination_aggr_status. by rewrite Hprobe. }
  split; [done|].
  intros cutover_action cutover_window fuel volume_list max_concurrent timeout.
  unfold process_volume_list. rewrite Hok. simpl. split; [|done].
  destruct (max_concurrent <=? 0)%Z; [done|].
  destruct (scheduler_run _ _ _ _ _ _ _) as [st [|]]; done.
Qed.

(** The theorem on a cluster whose destination is offline. *)
Lemma health_check_always_passes_witness :
  aggr_online w_offline "aggr1" = false ∧
  _check_destination_aggr_status w_offline "aggr1" = true ∧
  ∀ cutover_action cutover_window fuel volume_list max_concurrent timeout,
    process_volume_list w_offline "aggr1" cutover_action cutover_window fuel
      volume_list max_concurrent timeout false ≠ Some Aborted ∧
    process_volume_list w_offline "aggr1" cutover_action cutover_window fuel
      volume_list max_concurrent timeout false
    = process_volume_list w_offline "aggr1" cutover_action cutover_window fuel
        volume_list max_concurrent timeout true.
Proof.
  split; [reflexivity|].
  apply (health_check_always_passes w_offline "aggr1"). reflexivity.
Defined.

Lemma read_volume_list_elem (lines : list string) (v : string) :
  v ∈ read_volume_list (Some lines) ↔
  v ≠ EmptyString ∧ ∃ line, line ∈ lines ∧ strip line = v.
Proof.
  unfold read_volume_list. rewrite list_elem_of_filter, list_elem_of_fmap. split.
  - intros [Hne (line & -> & Hin)]. split; [done|]. by exists line.
  - intros [Hne (line & Hin & <-)]. split; [done|]. by exists line.
Qed.

Lemma supplied_from_file (a : Args) (v : string) :
  v ∈ match arg_volume_list a with Some file => read_volume_list file | None => [] end
  ↔ ∃ lines, arg_volume_list a = Some (Some lines) ∧ v ≠ EmptyString ∧
             ∃ line, line ∈ lines ∧ strip line = v.
Proof.
  destruct (arg_volume_list a) as [[lines|]|].
  - rewrite read_volume_list_elem. split.
    + intros H. by exists lines.
    + intros (lines' & [= <-] & H). done.
  - simpl. rewrite elem_of_nil. split; [done|]. by intros (lines' & [=] & _).
  - rewrite elem_of_nil. split; [done|]. by intros (lines' & [=] & _).
Qed.

Lemma supplied_from_flags (a : Args) (v : string) :
  v ∈ match arg_volume a with Some vs => vs | None => [] end
  ↔ ∃ flags, arg_volume a = Some flags ∧ v ∈ flags.
Proof.
  destruct (arg_volume a) as [flags|]; simpl.
  - split.
    + intros H. by exists flags.
    + intros (flags' & [= <-] & H). done.
  - rewrite elem_of_nil. split; [done|]. by intros (flags' & [=] & _).
Qed.

(** C10. The list [main] hands to the dispatcher holds every supplied
    name (the stripped non-blank lines of the file, then the [--volume]
    flags) exactly once, in whatever order the set is enumerated; that
    order need not be the order of supply, even when no name is repeated. *)
Theorem targets_are_deduplicated (set_order : list string → list string)
    (a : Args) (targets : list string) :
  (∀ l, set_order l ≡ₚ elements (list_to_set l : gset string)) →
  main_volumes set_order a = Some targets →
  NoDup targets ∧
  (∀ v, v ∈ targets ↔ v ∈ supplied_volumes a) ∧
  (∀ v, v ∈ supplied_volumes a ↔
     (∃ lines, arg_volume_list a = Some (Some lines) ∧ v ≠ EmptyString ∧
               ∃ line, line ∈ lines ∧ strip line = v) ∨
     (∃ flags, arg_volume a = Some flags ∧ v ∈ flags)) ∧
  ∃ set_order' a' targets',
    (∀ l, set_order' l ≡ₚ elements (list_to_set l : gset string)) ∧
    NoDup (supplied_volumes a') ∧
    main_volumes set_order' a' = Some targets' ∧
    targets' ≠ supplied_volumes a'.
Proof.
  intros Hord Hmain. unfold main_volumes in Hmain.
  destruct (supplied_volumes a) as [|x l] eqn:Hsup; [done|].
  injection Hmain as <-. split_and!.
  - rewrite Hord. apply NoDup_elements.
  - intros v. rewrite Hord, elem_of_elements, elem_of_list_to_set. done.
  - intros v. rewrite <- Hsup. unfold supplied_volumes.
    by rewrite elem_of_app, supplied_from_file, supplied_from_flags.
  - exists sorted_set_order, (sample_args None (Some ["volB"; "volA"]) 86400),
      ["volA"; "volB"].
    split_and!; [done|by_decide|vm_compute; reflexivity|done].
Qed.

(** The theorem on a file of three lines and two flags, one name repeated. *)
Lemma targets_are_deduplicated_witness :
  main_volumes sorted_set_order
    (sample_args (Some (Some ["volB
"; "   "; " volA"])) (Some ["volC"; "volB"]) 86400)
    = Some ["volC"; "volA"; "volB"] ∧
  NoDup ["volC"; "volA"; "volB"] ∧
  (∀ v, v ∈ ["volC"; "volA"; "volB"] ↔ v ∈ ["volB"; "volA"; "volC"; "volB"]).
Proof.
  split; [vm_compute; reflexivity|].
  destruct (targets_are_deduplicated sorted_set_order
              (sample_args (Some (Some ["volB
"; "   "; " volA"])) (Some ["volC"; "volB"]) 86400)
              ["volC"; "volA"; "volB"]) as (H1 & H2 & _).
  - intros l. reflexivity.
  - vm_compute. reflexivity.
  - split; [exact H1|exact H2].
Defined.

(** ** Beyond the claims *)

(** A job that never answers in the success or the failure class is polled
    until the timeout and no longer. *)
Lemma wait_loop_gives_up (cp : ControlPlane) (volume_name job_id : string)
    (timeout start_time : Z) :
  (∀ n, poll_transition (get_move_status cp volume_name job_id n).1.1 = Polling) →
  ∀ now n last_percent last_log_time lg,
    let r := wait_loop cp volume_name job_id timeout start_time now n
               last_percent last_log_time lg in
    wait_result r = false ∧ final_state r = TimedOut ∧
    (timeout ≤ wait_end r - start_time)%Z ∧ (now ≤ wait_end r)%Z.
Proof.
  intros Hpoll now.
  remember (Z.to_nat (timeout - (now - start_time))) as m eqn:Hm.
  revert now Hm. induction m as [m IH] using lt_wf_ind.
  intros now -> n lp llt lg.
  destruct (Z_lt_dec (now - start_time) timeout) as [Hlt|Hge].
  - destruct (wait_loop_polling cp volume_name job_id timeout start_time
                now n lp llt lg Hlt (Hpoll n)) as (lp' & llt' & lg' & _ & Heq).
    cbv zeta. rewrite Heq.
    edestruct (IH (Z.to_nat (timeout - (now + Z.of_N (job_latency cp job_id n)
                                        + poll_sleep - start_time))))
      as (H1 & H2 & H3 & H4); [|reflexivity|].
    + unfold poll_sleep. lia.
    + split_and!; [exact H1|exact H2|exact H3|]. unfold poll_sleep in H4. lia.
  - destruct (wait_loop_timed_out cp volume_name job_id timeout start_time
                now n lp llt lg) as (H1 & _ & H3 & H4); [lia|].
    cbv zeta. rewrite H3. split_and!; [done|done|lia|lia].
Qed.

(** X1. With the timeout it is given, a wait whose status queries never
    answer in the success or the failure class returns [False] no earlier
    than [timeout] seconds after it began, reported as a timeout and not as
    a failure; the worker then removes the target from [active_moves] and
    records the move as failed. *)
Theorem wait_gives_up_at_timeout (cp : ControlPlane)
    (volume_name dest_aggr cutover_action job_id : string)
    (cutover_window timeout now : Z) (sh : Shared) :
  start_move cp volume_name dest_aggr cutover_action cutover_window = (true, job_id) →
  (∀ n, poll_transition (get_move_status cp volume_name job_id n).1.1 = Polling) →
  (let r := wait_for_move_completion cp volume_name job_id timeout now in
   wait_result r = false ∧ final_state r = TimedOut ∧
   (timeout ≤ wait_end r - now)%Z) ∧
  (let r := process_volume_move cp volume_name dest_aggr cutover_action
              cutover_window timeout now sh in
   wr_result r = false ∧
   active_moves (wr_shared r) !! volume_name = None ∧
   move_results (wr_shared r) !! volume_name = Some false).
Proof.
  intros Hstart Hpoll.
  pose proof (λ t, wait_loop_gives_up cp volume_name job_id timeout t Hpoll
                     t 0 (-1)%Z 0%Z []) as Hw.
  split.
  - destruct (Hw now) as (H1 & H2 & H3 & _). done.
  - unfold process_volume_move. rewrite Hstart. simpl.
    destruct (Hw (now + Z.of_N (start_latency cp volume_name))%Z) as (H1 & _).
    unfold wait_for_move_completion. rewrite H1.
    split_and!; [done|apply lookup_delete_eq|apply lookup_insert_eq].
Qed.

(** The theorem on a job that always answers an unknown state. *)
Lemma wait_gives_up_at_timeout_witness :
  (let r := wait_for_move_completion cp_trailing_space "vol1" "job-vol1" 60 0 in
   wait_result r = false ∧ final_state r = TimedOut ∧ (60 ≤ wait_end r - 0)%Z) ∧
  (let r := process_volume_move cp_trailing_space "vol1" "aggr1" "retry" 30 60 0
              {| active_moves := ∅; move_results := ∅ |} in
   wr_result r = false ∧
   active_moves (wr_shared r) !! "vol1" = None ∧
   move_results (wr_shared r) !! "vol1" = Some false).
Proof.
  apply (wait_gives_up_at_timeout cp_trailing_space "vol1" "aggr1" "retry" "job-vol1").
  - reflexivity.
  - intros n. reflexivity.
Defined.



(** * Starting a move over SSH *)

(** ** Strings as lists of characters *)

Lemma str_app_cons (c : ascii) (a b : string) : String c a +:+ b = String c (a +:+ b).
Proof. reflexivity. Qed.

Lemma str_app_nil_l (b : string) : EmptyString +:+ b = b.
Proof. reflexivity. Qed.

Lemma str_chars_app (a b : string) : str_chars (a +:+ b) = str_chars a ++ str_chars b.
Proof.
  induction a as [|c a IH]; [done|].
  rewrite str_app_cons. cbn [str_chars]. by rewrite IH.
Qed.

Lemma str_app_nil_r (a : string) : a +:+ EmptyString = a.
Proof. induction a as [|c a IH]; [done|]. by rewrite str_app_cons, IH. Qed.

Lemma str_app_assoc (a b c : string) : (a +:+ b) +:+ c = a +:+ (b +:+ c).
Proof. induction a as [|x a IH]; [done|]. by rewrite !str_app_cons, IH. Qed.

Lemma str_app_snoc (a : string) (c : ascii) (b : string) :
  (a +:+ String c EmptyString) +:+ b = a +:+ String c b.
Proof. by rewrite str_app_assoc. Qed.

Lemma str_chars_nil (s : string) : str_chars s = [] → s = EmptyString.
Proof. by destruct s. Qed.

Lemma digit_not_space (c : ascii) : is_digit c = true → is_space c = false.
Proof. destruct c as [[] [] [] [] [] [] [] []]; vm_compute; congruence. Qed.

Lemma str_prefix_nil (s : string) : String.prefix EmptyString s = true.
Proof. by destruct s. Qed.

Lemma str_prefix_app (a b : string) : String.prefix a (a +:+ b) = true.
Proof.
  induction a as [|c a IH]; [by destruct b|].
  rewrite str_app_cons. simpl. destruct (ascii_dec c c); [done|congruence].
Qed.

Lemma str_prefix_head (c d : ascii) (a s : string) :
  c ≠ d → String.prefix (String c a) (String d s) = false.
Proof. intros Hne. simpl. by destruct (ascii_dec c d). Qed.

(** ** [in], [split], [split()] *)

Lemma str_contains_prefix (needle hay : string) :
  String.prefix needle hay = true → str_contains needle hay = true.
Proof. intros H. destruct hay; cbn [str_contains]; by rewrite H. Qed.

Lemma str_contains_app (needle a b : string) :
  str_contains needle (a +:+ needle +:+ b) = true.
Proof.
  induction a as [|c a IH].
  - rewrite str_app_nil_l. apply str_contains_prefix, str_prefix_app.
  - rewrite str_app_cons. cbn [str_contains]. rewrite IH.
    by destruct (String.prefix needle _).
Qed.

(** Characters that cannot begin a separator go into the current piece. *)
Lemma str_split_aux_skip (c0 : ascii) (sep' a z cur : string) :
  c0 ∉ str_chars a →
  str_split_aux (String c0 sep') 0 cur (a +:+ z)
  = str_split_aux (String c0 sep') 0 (cur +:+ a) z.
Proof.
  revert cur. induction a as [|c a IH]; intros cur Hnin.
  - by rewrite str_app_nil_l, str_app_nil_r.
  - simpl in Hnin. apply not_elem_of_cons in Hnin as [Hne Hnin].
    rewrite str_app_cons. cbn [str_split_aux]. rewrite str_prefix_head by done.
    rewrite IH by done. by rewrite str_app_snoc.
Qed.

(** The first piece extends the current one. *)
Lemma str_split_aux_head (sep : string) (k : nat) (cur s : string) :
  ∃ h t, str_split_aux sep k cur s = (cur +:+ h) :: t ∧
         (h = EmptyString ∨ k ≠ 0 ∨ ∃ c r h', s = String c r ∧ h = String c h').
Proof.
  revert k cur. induction s as [|c s IH]; intros k cur.
  - exists EmptyString, []. simpl. rewrite str_app_nil_r. auto.
  - destruct k as [|k].
    + cbn [str_split_aux]. destruct (String.prefix sep (String c s)).
      * eexists EmptyString, _. rewrite str_app_nil_r. auto.
      * destruct (IH 0 (cur +:+ String c EmptyString)) as (h & t & Heq & _).
        exists (String c h), t. rewrite Heq, str_app_snoc.
        split; [done|]. right. right. by exists c, s, h.
    + cbn [str_split_aux]. destruct (IH k cur) as (h & t & Heq & _).
      exists h, t. split; [done|]. right. by left.
Qed.

Lemma str_words_aux_ok (cur s w : string) :
  spaceless cur → w ∈ str_words_aux cur s → w ≠ EmptyString ∧ spaceless w.
Proof.
  revert cur. induction s as [|c s IH]; intros cur Hcur; simpl.
  - destruct cur; [by intros ?%elem_of_nil|].
    intros ->%list_elem_of_singleton. done.
  - destruct (is_space c) eqn:Hc.
    + destruct cur as [|c' cur'].
      * apply IH. by intros ? ?%elem_of_nil.
      * intros [->|Hin]%elem_of_cons; [done|].
        revert Hin. apply IH. by intros ? ?%elem_of_nil.
    + apply IH. intros x. rewrite str_chars_app. simpl.
      intros [Hx|Hx]%elem_of_app; [by apply Hcur|].
      apply list_elem_of_singleton in Hx. by subst.
Qed.

Lemma str_words_aux_token (cur tok h : string) :
  spaceless tok → cur +:+ tok ≠ EmptyString → blank_led h →
  head (str_words_aux cur (tok +:+ h)) = Some (cur +:+ tok).
Proof.
  revert cur. induction tok as [|c tok IH]; intros cur Htok Hne Hh.
  - rewrite str_app_nil_r in *. rewrite str_app_nil_l.
    destruct Hh as [->|(c & r & -> & Hc)]; simpl.
    + by destruct cur.
    + rewrite Hc. by destruct cur.
  - rewrite str_app_cons. cbn [str_words_aux].
    rewrite (Htok c) by (simpl; apply elem_of_cons; by left).
    rewrite IH; [by rewrite str_app_snoc| | |done].
    + intros x Hx. apply Htok. simpl. apply elem_of_cons; by right.
    + rewrite str_app_snoc. by destruct cur.
Qed.

(** ** [strip] *)

Lemma lstrip_blank (b s : string) : blank b → lstrip (b +:+ s) = lstrip s.
Proof.
  induction b as [|c b IH]; intros Hb; [done|].
  rewrite str_app_cons. simpl.
  rewrite (Hb c) by (simpl; apply elem_of_cons; by left).
  apply IH. intros x Hx. apply Hb. simpl. apply elem_of_cons; by right.
Qed.

Lemma lstrip_nonblank (c : ascii) (s : string) :
  is_space c = false → lstrip (String c s) = String c s.
Proof. intros Hc. simpl. by rewrite Hc. Qed.

Lemma rstrip_nonblank (c : ascii) (s : string) :
  is_space c = false → rstrip (String c s) = String c (rstrip s).
Proof. intros Hc. simpl. rewrite Hc. by destruct (rstrip s). Qed.

Lemma rstrip_spaceless_app (tok s : string) :
  spaceless tok → rstrip (tok +:+ s) = tok +:+ rstrip s.
Proof.
  induction tok as [|c tok IH]; intros Htok; [done|].
  rewrite !str_app_cons.
  rewrite rstrip_nonblank by (apply Htok; simpl; apply elem_of_cons; by left).
  rewrite IH; [done|]. intros x Hx. apply Htok. simpl. apply elem_of_cons; by right.
Qed.

Lemma rstrip_blank_led (s : string) : blank_led s → blank_led (rstrip s).
Proof.
  intros [->|(c & r & -> & Hc)]; [by left|].
  simpl. rewrite Hc. destruct (rstrip r); [by left|].
  right. by eexists _, _.
Qed.

Lemma rstrip_blank (b : string) : blank b → rstrip b = EmptyString.
Proof.
  induction b as [|c b IH]; intros Hb; [done|].
  simpl. rewrite IH.
  - by rewrite (Hb c) by (simpl; apply elem_of_cons; by left).
  - intros x Hx. apply Hb. simpl. apply elem_of_cons; by right.
Qed.

Lemma strip_blank (b : string) : blank b → strip b = EmptyString.
Proof.
  intros Hb. unfold strip.
  rewrite <- (str_app_nil_r b), lstrip_blank by done. done.
Qed.

(** ** The job-id pattern *)

Lemma str_span_app (p : ascii → bool) (a s : string) :
  (∀ c, c ∈ str_chars a → p c = true) →
  (s = EmptyString ∨ ∃ c r, s = String c r ∧ p c = false) →
  str_span p (a +:+ s) = (a, s).
Proof.
  intros Ha Hs. induction a as [|c a IH].
  - rewrite str_app_nil_l. destruct Hs as [->|(c & r & -> & Hc)]; simpl; [done|].
    by rewrite Hc.
  - rewrite str_app_cons. simpl.
    rewrite (Ha c) by (simpl; apply elem_of_cons; by left).
    rewrite IH; [done|]. intros x Hx. apply Ha. simpl. apply elem_of_cons; by right.
Qed.

Lemma str_span_spec (p : ascii → bool) (s : string) :
  (∀ c, c ∈ str_chars (str_span p s).1 → p c = true) ∧
  (str_span p s).1 +:+ (str_span p s).2 = s.
Proof.
  induction s as [|c s [IH1 IH2]]; simpl.
  - split; [by intros ? ?%elem_of_nil|done].
  - destruct (p c) eqn:Hc; [|split; [by intros ? ?%elem_of_nil|done]].
    destruct (str_span p s) as [a b]. simpl in *. split.
    + intros x [->|Hx]%elem_of_cons; [done|by apply IH1].
    + by rewrite str_app_cons, IH2.
Qed.

Lemma match_nocase_lower (pat marker y : string) :
  str_lower marker = pat → match_nocase pat (marker +:+ y) = Some y.
Proof.
  revert pat. induction marker as [|c m IH]; intros pat <-; [done|].
  rewrite str_app_cons. simpl. rewrite decide_True by done. by apply IH.
Qed.

Lemma match_nocase_chars (pat s rest : string) :
  match_nocase pat s = Some rest → str_chars rest ⊆ str_chars s.
Proof.
  revert s. induction pat as [|p pat IH]; intros s; simpl.
  - by intros [= ->].
  - destruct s as [|c s]; [done|].
    destruct (decide (lower_char c = p)); [|done].
    intros Hr%IH. simpl. intros x Hx. apply elem_of_cons. right. by apply Hr.
Qed.

Lemma match_job_id_head (c : ascii) (s : string) :
  lower_char c ≠ "j"%char → match_job_id (String c s) = None.
Proof. intros Hc. unfold match_job_id. simpl. by rewrite decide_False. Qed.

Lemma match_job_id_spec (s d : string) :
  match_job_id s = Some d →
  d ≠ EmptyString ∧ all_digits d ∧ str_chars d ⊆ str_chars s.
Proof.
  unfold match_job_id.
  destruct (match_nocase "job-id" s) as [rest|] eqn:Hm; [|done].
  apply match_nocase_chars in Hm.
  destruct (str_span_spec is_space rest) as [_ H1].
  destruct (str_span is_space rest) as [blanks rest'].
  destruct (str_span_spec is_digit rest') as [H2 H3].
  destruct (str_span is_digit rest') as [digits rest'']. simpl in *.
  destruct blanks; [done|]. destruct digits as [|c0 digits]; [done|].
  intros [= <-]. split_and!; [done|done|].
  etrans; [|exact Hm]. rewrite <- H1, <- H3, !str_chars_app.
  intros x Hx. apply elem_of_app. right. apply elem_of_app. by left.
Qed.

Lemma re_search_job_id_spec (s d : string) :
  re_search_job_id s = Some d →
  d ≠ EmptyString ∧ all_digits d ∧ str_chars d ⊆ str_chars s.
Proof.
  induction s as [|c s IH]; cbn [re_search_job_id].
  - destruct (match_job_id EmptyString) eqn:E; [|done].
    intros [= ->]. by apply match_job_id_spec.
  - destruct (match_job_id (String c s)) eqn:E.
    + intros [= ->]. by apply match_job_id_spec.
    + intros H. destruct (IH H) as (? & ? & Hsub). split_and!; [done|done|].
      simpl. intros x Hx. apply elem_of_cons. right. by apply Hsub.
Qed.

Lemma re_search_job_id_skip (pre s : string) (d : string) :
  (∀ c, c ∈ str_chars pre → lower_char c ≠ "j"%char) →
  match_job_id s = Some d →
  re_search_job_id (pre +:+ s) = Some d.
Proof.
  intros Hpre Hm. induction pre as [|c pre IH].
  - rewrite str_app_nil_l. destruct s; cbn [re_search_job_id]; by rewrite Hm.
  - rewrite str_app_cons. cbn [re_search_job_id].
    rewrite match_job_id_head by (apply Hpre; simpl; apply elem_of_cons; by left).
    apply IH. intros x Hx. apply Hpre. simpl. apply elem_of_cons; by right.
Qed.

Lemma all_digits_spaceless (d : string) : all_digits d → spaceless d.
Proof. intros Hd c Hc. by apply digit_not_space, Hd. Qed.

(** ** What [initiate_volume_move_cli] answers *)

(** The second piece of the split at the first ["Job ID:"]. *)
Lemma str_split_second (pre a rest : string) :
  "J"%char ∉ str_chars pre → "J"%char ∉ str_chars a →
  ∃ h, (h = EmptyString ∨ ∃ c r h', rest = String c r ∧ h = String c h') ∧
       str_split "Job ID:" (pre +:+ "Job ID:" +:+ a +:+ rest) !! 1 = Some (a +:+ h).
Proof.
  intros Hpre Ha. unfold str_split.
  rewrite (str_split_aux_skip "J" "ob ID:" pre) by done.
  rewrite str_app_nil_l.
  change ("Job ID:" +:+ a +:+ rest)
    with (String "J" (String "o" (String "b" (String " " (String "I"
           (String "D" (String ":" (a +:+ rest)))))))).
  cbn [str_split_aux]. simpl String.prefix. rewrite str_prefix_nil.
  cbn [str_split_aux String.length Nat.sub].
  rewrite (str_split_aux_skip "J" "ob ID:" a) by done.
  rewrite str_app_nil_l.
  destruct (str_split_aux_head "Job ID:" 0 a rest) as (h & t & -> & Hh).
  exists h. split; [|done].
  destruct Hh as [->|[?|?]]; [by left|done|by right].
Qed.

(** X3. Whenever the start of a move is reported as successful, the ssh
    command ended with exit status 0 and the job id handed to the poller is
    a non-empty string without blanks: a token after ["Job ID:"], the
    digits of the job-id pattern, or the placeholder ["CLI_JOB"]. *)
Theorem started_job_id_is_a_token (run : SshRun) (job_id : string) :
  initiate_volume_move_cli run = Some (true, job_id) →
  job_id ≠ EmptyString ∧ spaceless job_id ∧
  ∃ stdout stderr, run = SshExit 0 stdout stderr.
Proof.
  destruct run as [rc out err| | |msg]; simpl; try done.
  destruct (Z.eqb_spec rc 0) as [->|Hne]; simpl; [|done].
  intros H.
  assert (job_id ≠ EmptyString ∧ spaceless job_id) as [H1 H2]; [|by eauto].
  destruct (str_contains "Job ID:" out).
  - destruct (str_split "Job ID:" out !! 1) as [piece|]; [|done].
    destruct (str_words (strip piece)) as [|w ws] eqn:Hw; [done|].
    injection H as <-.
    apply (str_words_aux_ok EmptyString (strip piece)).
    + by intros ? ?%elem_of_nil.
    + fold (str_words (strip piece)). rewrite Hw. apply elem_of_cons; by left.
  - destruct (str_contains "job-id" (str_lower out)).
    + destruct (re_search_job_id out) as [d|] eqn:Hd; [|done].
      injection H as <-. apply re_search_job_id_spec in Hd as (? & ? & _).
      split; [done|]. by apply all_digits_spaceless.
    + injection H as <-. split; [done|].
      intros c Hc. vm_compute in Hc.
      repeat (apply elem_of_cons in Hc as [->|Hc]; [reflexivity|]).
      by apply elem_of_nil in Hc.
Qed.

(** The theorem on an output that names its job. *)
Lemma started_job_id_is_a_token_witness :
  initiate_volume_move_cli (SshExit 0 "Volume move started. Job ID: 4711 (queued)" "")
    = Some (true, "4711") ∧
  "4711" ≠ EmptyString ∧ spaceless "4711".
Proof.
  split; [vm_compute; reflexivity|].
  destruct (started_job_id_is_a_token
              (SshExit 0 "Volume move started. Job ID: 4711 (queued)" "") "4711")
    as (H1 & H2 & _); [vm_compute; reflexivity|].
  split; [exact H1|exact H2].
Defined.

(** X4. An output whose first ["Job ID:"] is followed by optional blanks
    and a blank-delimited token gives that token back as the job id:
    before the marker any text without a capital J, after the token nothing
    or a blank and then anything (further markers included). *)
Theorem job_id_line_round_trip (pre blanks tok rest stderr : string) :
  "J"%char ∉ str_chars pre → blank blanks →
  tok ≠ EmptyString → spaceless tok → "J"%char ∉ str_chars tok →
  blank_led rest →
  initiate_volume_move_cli
    (SshExit 0 (pre +:+ "Job ID:" +:+ blanks +:+ tok +:+ rest) stderr)
  = Some (true, tok).
Proof.
  intros Hpre Hb Hne Htok HtokJ Hrest. simpl.
  rewrite str_contains_app.
  destruct (str_split_second pre (blanks +:+ tok) rest) as (h & Hh & Hsplit);
    [done| |].
  { rewrite str_chars_app. intros [Hin|Hin]%elem_of_app; [|done].
    apply Hb in Hin. done. }
  rewrite str_app_assoc in Hsplit. rewrite Hsplit.
  assert (blank_led h) as Hled.
  { destruct Hh as [->|(c & r & h' & -> & ->)]; [by left|]. right.
    destruct Hrest as [?|(c' & r' & [= <- <-] & Hc)]; [done|]. by eexists _, _. }
  unfold strip. rewrite str_app_assoc, lstrip_blank by done.
  destruct tok as [|c tok]; [done|].
  rewrite str_app_cons, lstrip_nonblank
    by (apply Htok; simpl; apply elem_of_cons; by left).
  rewrite <- str_app_cons, rstrip_spaceless_app by done.
  pose proof (str_words_aux_token EmptyString (String c tok) (rstrip h) Htok) as Hw.
  rewrite str_app_nil_l in Hw. specialize (Hw Hne (rstrip_blank_led h Hled)).
  fold (str_words (String c tok +:+ rstrip h)) in Hw.
  destruct (str_words _) as [|w ws]; [done|]. simpl in Hw. by injection Hw as ->.
Qed.

(** The theorem on an output with text before and after the job id. *)
Lemma job_id_line_round_trip_witness :
  initiate_volume_move_cli
    (SshExit 0 ("[vs1] " +:+ "Job ID:" +:+ "  " +:+ "4711" +:+ " queued. Job ID: 9") "")
  = Some (true, "4711").
Proof.
  apply (job_id_line_round_trip "[vs1] " "  " "4711" " queued. Job ID: 9" "").
  - by_decide.
  - intros c Hc. vm_compute in Hc.
    repeat (apply elem_of_cons in Hc as [->|Hc]; [reflexivity|]).
    by apply elem_of_nil in Hc.
  - done.
  - intros c Hc. vm_compute in Hc.
    repeat (apply elem_of_cons in Hc as [->|Hc]; [reflexivity|]).
    by apply elem_of_nil in Hc.
  - by_decide.
  - right. by eexists _, _.
Defined.

Lemma str_lower_app (a b : string) : str_lower (a +:+ b) = str_lower a +:+ str_lower b.
Proof.
  induction a as [|c a IH]; [done|].
  rewrite str_app_cons. cbn [str_lower]. by rewrite IH, str_app_cons.
Qed.

Lemma blank_no_J (b : string) : blank b → "J"%char ∉ str_chars b.
Proof. intros Hb Hin. apply Hb in Hin. done. Qed.

(** Closed facts about the characters of a literal. *)
Ltac by_chars :=
  let c := fresh "c" in let Hc := fresh "Hc" in
  intros c Hc; vm_compute in Hc;
  repeat (apply elem_of_cons in Hc as [->|Hc]; [done|]);
  by apply elem_of_nil in Hc.

(** X5. An output without ["Job ID:"] in which the first mention of
    job-id, in any letter case, is followed by one or more blanks and then
    digits gives those digits back as the job id, whatever follows them. *)
Theorem job_id_pattern_round_trip (pre marker blanks digits rest stderr : string) :
  (∀ c, c ∈ str_chars pre → lower_char c ≠ "j"%char) →
  str_lower marker = "job-id" →
  blanks ≠ EmptyString → blank blanks →
  digits ≠ EmptyString → all_digits digits →
  not_digit_led rest →
  str_contains "Job ID:" (pre +:+ marker +:+ blanks +:+ digits +:+ rest) = false →
  initiate_volume_move_cli
    (SshExit 0 (pre +:+ marker +:+ blanks +:+ digits +:+ rest) stderr)
  = Some (true, digits).
Proof.
  intros Hpre Hmark Hbne Hb Hdne Hd Hrest Hnot. simpl. rewrite Hnot.
  rewrite !str_lower_app, Hmark, str_contains_app.
  rewrite (re_search_job_id_skip pre _ digits); [done|done|].
  unfold match_job_id. rewrite (match_nocase_lower "job-id" marker) by done.
  rewrite (str_span_app is_space blanks) by
    (first [done | destruct digits as [|c d]; [done|]; right;
                   exists c, (d +:+ rest); split; [done|];
                   apply digit_not_space, Hd; simpl; apply elem_of_cons; by left]).
  rewrite (str_span_app is_digit digits) by done.
  destruct blanks; [done|]. by destruct digits.
Qed.

(** The theorem on an output in capitals. *)
Lemma job_id_pattern_round_trip_witness :
  initiate_volume_move_cli
    (SshExit 0 ("move queued, " +:+ "JOB-ID" +:+ "  " +:+ "0042" +:+ "; job-id 7") "")
  = Some (true, "0042").
Proof.
  apply (job_id_pattern_round_trip "move queued, " "JOB-ID" "  " "0042" "; job-id 7" "").
  - by_chars.
  - reflexivity.
  - done.
  - by_chars.
  - done.
  - by_chars.
  - right. by eexists _, _.
  - vm_compute. reflexivity.
Defined.

(** X6. Exit status 0 is not always a start: an output that ends with
    ["Job ID:"] and blanks (no capital J before the marker) makes the
    extraction of the job id fail, and the move is reported as not started
    with the text of the [IndexError]. *)
Theorem job_id_marker_without_id (pre blanks stderr : string) :
  "J"%char ∉ str_chars pre → blank blanks →
  initiate_volume_move_cli (SshExit 0 (pre +:+ "Job ID:" +:+ blanks) stderr)
  = Some (false, "list index out of range").
Proof.
  intros Hpre Hb.
  destruct (str_split_second pre blanks EmptyString Hpre (blank_no_J blanks Hb))
    as (h & Hh & Hsplit).
  destruct Hh as [->|(c & r & h' & [=] & _)].
  rewrite !str_app_nil_r in Hsplit. simpl.
  rewrite str_contains_app, Hsplit, strip_blank by done. done.
Qed.

(** The theorem on an output cut after the marker. *)
Lemma job_id_marker_without_id_witness :
  initiate_volume_move_cli (SshExit 0 ("Volume move started. " +:+ "Job ID:" +:+ " ") "")
  = Some (false, "list index out of range").
Proof.
  apply (job_id_marker_without_id "Volume move started. " " " "").
  - by_decide.
  - by_chars.
Defined.

(** X7. An output with exit status 0 that mentions job-id (in any letter
    case) but holds no ["Job ID:"] and no digit matches none of the
    method's branches: it returns no pair, and the worker ends with the
    [TypeError] of unpacking it instead of a result. *)
Theorem job_id_without_number (stdout stderr : string) (cp : ControlPlane)
    (volume_name dest_aggr cutover_action : string) (cutover_window timeout : Z)
    (now : Z) (sh : Shared) :
  str_contains "Job ID:" stdout = false →
  str_contains "job-id" (str_lower stdout) = true →
  (∀ c, c ∈ str_chars stdout → is_digit c = false) →
  initiate_volume_move_cli (SshExit 0 stdout stderr) = None ∧
  process_volume_move_ssh (SshExit 0 stdout stderr) cp volume_name dest_aggr
    cutover_action cutover_window timeout now sh = WorkerRaisesTypeError.
Proof.
  intros Hnot Hmention Hnodigit.
  assert (initiate_volume_move_cli (SshExit 0 stdout stderr) = None) as Hnone.
  { simpl. rewrite Hnot, Hmention.
    destruct (re_search_job_id stdout) as [d|] eqn:Hd; [|done].
    apply re_search_job_id_spec in Hd as (Hne & Hall & Hsub).
    destruct d as [|c d]; [done|].
    assert (c ∈ str_chars (String c d)) as Hc by (simpl; apply elem_of_cons; by left).
    pose proof (Hall c Hc) as H1. pose proof (Hnodigit c (Hsub c Hc)) as H2.
    congruence. }
  split; [done|]. unfold process_volume_move_ssh. by rewrite Hnone.
Qed.

(** The theorem on an output that names a pending job. *)
Lemma job_id_without_number_witness :
  initiate_volume_move_cli (SshExit 0 "Queued; job-id: pending" "") = None ∧
  process_volume_move_ssh (SshExit 0 "Queued; job-id: pending" "") cp_plain
    "vol1" "aggr1" "retry" 30 86400 0 {| active_moves := ∅; move_results := ∅ |}
  = WorkerRaisesTypeError.
Proof.
  apply (job_id_without_number "Queued; job-id: pending" "" cp_plain).
  - vm_compute. reflexivity.
  - vm_compute. reflexivity.
  - by_chars.
Defined.

(** X8. A start that is reported as failed is never polled: a non-zero exit
    status (whatever the output says), the timeout of the ssh command, a
    missing sshpass and any other exception all give [(False, text)]; the
    worker then returns [False] without a status query, records the
    failure under its volume and leaves [active_moves] as it was. *)
Theorem failed_start_is_not_polled (run : SshRun) (msg : string) (cp : ControlPlane)
    (volume_name dest_aggr cutover_action : string) (cutover_window timeout : Z)
    (now : Z) (sh : Shared) :
  initiate_volume_move_cli run = Some (false, msg) →
  (∃ r, process_volume_move_ssh run cp volume_name dest_aggr cutover_action
          cutover_window timeout now sh = WorkerReturns r ∧
        wr_result r = false ∧ wr_polls r = 0 ∧
        wr_end r = (now + Z.of_N (start_latency cp volume_name))%Z ∧
        active_moves (wr_shared r) = active_moves sh ∧
        move_results (wr_shared r) !! volume_name = Some false ∧
        last (wr_log r) = Some (LogInitiateFailed volume_name msg)) ∧
  (∀ returncode stdout stderr, returncode ≠ 0%Z →
     initiate_volume_move_cli (SshExit returncode stdout stderr) = Some (false, stderr)) ∧
  (∃ text, initiate_volume_move_cli SshTimeoutExpired = Some (false, text)) ∧
  (∃ text, initiate_volume_move_cli SshFileNotFound = Some (false, text)) ∧
  (∀ text, initiate_volume_move_cli (SshOtherError text) = Some (false, text)).
Proof.
  intros Hfail. split_and!.
  - unfold process_volume_move_ssh. rewrite Hfail. eexists. split; [done|].
    unfold process_volume_move. simpl.
    split_and!; try done. apply lookup_insert_eq.
  - intros rc out err Hrc. simpl. by destruct (Z.eqb_spec rc 0).
  - by eexists.
  - by eexists.
  - done.
Qed.

(** The theorem on a denied login that still prints a job id. *)
Lemma failed_start_is_not_polled_witness :
  initiate_volume_move_cli (SshExit 255 "Job ID: 12" "Permission denied")
    = Some (false, "Permission denied") ∧
  ∃ r, process_volume_move_ssh (SshExit 255 "Job ID: 12" "Permission denied") cp_plain
         "vol1" "aggr1" "retry" 30 86400 0 {| active_moves := ∅; move_results := ∅ |}
       = WorkerReturns r ∧ wr_result r = false ∧ wr_polls r = 0.
Proof.
  split; [reflexivity|].
  destruct (failed_start_is_not_polled (SshExit 255 "Job ID: 12" "Permission denied")
              "Permission denied" cp_plain "vol1" "aggr1" "retry" 30 86400 0
              {| active_moves := ∅; move_results := ∅ |})
    as ((r & H1 & H2 & H3 & _) & _); [reflexivity|].
  exists r. split_and!; [exact H1|exact H2|exact H3].
Defined.

(** * Reading the volume list *)

Lemma lstrip_led (s : string) :
  lstrip s = EmptyString ∨ ∃ c r, lstrip s = String c r ∧ is_space c = false.
Proof.
  induction s as [|c s IH]; simpl; [by left|].
  destruct (is_space c) eqn:Hc; [done|]. right. by exists c, s.
Qed.

Lemma rstrip_idem (s : string) : rstrip (rstrip s) = rstrip s.
Proof.
  induction s as [|c s IH]; [done|]. cbn [rstrip].
  destruct (rstrip s) as [|c' r'] eqn:Hr.
  - destruct (is_space c) eqn:Hc; [done|]. simpl. by rewrite Hc.
  - cbn [rstrip]. cbn [rstrip] in IH.
    destruct (rstrip r') as [|c'' r'']; by rewrite IH.
Qed.

Lemma rstrip_last (s : string) :
  rstrip s = EmptyString ∨
  ∃ a c, rstrip s = a +:+ String c EmptyString ∧ is_space c = false.
Proof.
  induction s as [|c s IH]; [by left|]. cbn [rstrip].
  destruct (rstrip s) as [|c' r'] eqn:Hr.
  - destruct (is_space c) eqn:Hc; [by left|]. right. by exists EmptyString, c.
  - right. destruct IH as [?|(a & x & -> & Hx)]; [done|].
    exists (String c a), x. by rewrite str_app_cons.
Qed.

Lemma strip_idem (s : string) : strip (strip s) = strip s.
Proof.
  unfold strip. destruct (lstrip_led s) as [->|(c & r & -> & Hc)]; [done|].
  rewrite rstrip_nonblank, lstrip_nonblank by done.
  by rewrite rstrip_nonblank, rstrip_idem by done.
Qed.

Lemma strip_led (s : string) :
  strip s = EmptyString ∨ ∃ c r, strip s = String c r ∧ is_space c = false.
Proof.
  unfold strip. destruct (lstrip_led s) as [->|(c & r & -> & Hc)]; [by left|].
  right. rewrite rstrip_nonblank by done. by eexists _, _.
Qed.

Lemma read_volume_list_fixed (l : list string) :
  Forall (λ v, v ≠ EmptyString ∧ strip v = v) l → read_volume_list (Some l) = l.
Proof.
  unfold read_volume_list. induction 1 as [|v l [Hne Hv] _ IH]; [done|].
  rewrite fmap_cons, filter_cons, Hv, decide_True by done. by rewrite IH.
Qed.

(** X9. Every name [read_volume_list] returns is the stripped form of a
    line of the file: it is not empty, and neither begins nor ends with a
    blank. Blank lines give no name, a file that cannot be read gives
    none at all, and reading the names back as a file gives the same
    list. *)
Theorem volume_names_are_stripped (file : option (list string)) (v : string) :
  v ∈ read_volume_list file →
  (∃ lines line, file = Some lines ∧ line ∈ lines ∧ strip line = v) ∧
  v ≠ EmptyString ∧ strip v = v ∧
  (∃ c r, v = String c r ∧ is_space c = false) ∧
  (∃ a c, v = a +:+ String c EmptyString ∧ is_space c = false) ∧
  read_volume_list (Some (read_volume_list file)) = read_volume_list file ∧
  read_volume_list None = [] ∧
  (∀ lines, Forall blank lines → read_volume_list (Some lines) = []).
Proof.
  intros Hin.
  assert (Hall : ∀ f, Forall (λ v, v ≠ EmptyString ∧ strip v = v) (read_volume_list f)).
  { intros [lines|]; [|by constructor]. apply Forall_forall. intros x.
    rewrite read_volume_list_elem. intros (Hne & line & _ & <-).
    split; [done|apply strip_idem]. }
  destruct file as [lines|]; [|by apply elem_of_nil in Hin].
  apply read_volume_list_elem in Hin as (Hne & line & Hline & <-).
  split_and!.
  - by exists lines, line.
  - done.
  - apply strip_idem.
  - by destruct (strip_led line).
  - unfold strip in *. by destruct (rstrip_last (lstrip line)).
  - apply read_volume_list_fixed, Hall.
  - done.
  - intros ls Hls. unfold read_volume_list.
    induction Hls as [|b ls Hb _ IH]; [done|].
    rewrite fmap_cons, filter_cons, strip_blank by done.
    rewrite decide_False by (intros H; by apply H). exact IH.
Qed.

(** The theorem on a file with padded and blank lines. *)
Lemma volume_names_are_stripped_witness :
  read_volume_list (Some ["  vol1 "; "   "; "vol2"]) = ["vol1"; "vol2"] ∧
  strip "vol1" = "vol1" ∧
  read_volume_list (Some ["vol1"; "vol2"]) = ["vol1"; "vol2"].
Proof.
  split; [reflexivity|].
  destruct (volume_names_are_stripped (Some ["  vol1 "; "   "; "vol2"]) "vol1")
    as (_ & _ & H1 & _ & _ & H2 & _); [by_decide|].
  split; [exact H1|exact H2].
Defined.

(** * Runs over any list, repeated names included *)

Section Accounting.
Context (w : ControlPlane) (dest_aggr cutover_action : string) (cutover_window : Z).
Context (K : nat) (vl : list string).

Local Abbreviation SInv := (state_inv w dest_aggr cutover_action cutover_window K vl).
Local Abbreviation submit' := (submit w dest_aggr cutover_action cutover_window).

(** What is in flight or completed was started, counting repetitions. *)
Local Abbreviation accounted st :=
  ((in_progress st).*1 ++ completed_volumes st ⊆+ started (sched_log st)).

Lemma accounted_start (d : list (string * Future)) comp lg v f k total :
  d.*1 ++ comp ⊆+ started lg →
  (dict_set d v f).*1 ++ comp ⊆+ started (lg ++ [LogStarted v k total]).
Proof.
  intros Hsub. rewrite started_snoc, dict_set_keys. case_decide.
  - by apply submseteq_inserts_r.
  - rewrite <- app_assoc, (Permutation_app_comm [v]), app_assoc.
    by apply submseteq_app.
Qed.

Lemma accounted_finish (d : list (string * Future)) comp lg v f e :
  NoDup d.*1 → (v, f) ∈ d → started (lg ++ [e]) = started lg →
  d.*1 ++ comp ⊆+ started lg →
  (dict_del d v).*1 ++ (comp ++ [v]) ⊆+ started (lg ++ [e]).
Proof.
  intros Hnd Hin -> Hsub.
  assert (Hk : v ∈ d.*1) by (apply list_elem_of_fmap; by exists (v, f)).
  rewrite dict_del_keys. etrans; [|exact Hsub].
  rewrite (NoDup_extract d.*1 v Hnd Hk) at 2.
  rewrite app_assoc, (Permutation_app_comm _ [v]). done.
Qed.

Lemma seed_accounted total i vols d lg :
  d.*1 ⊆+ started lg →
  (seed w dest_aggr cutover_action cutover_window total i vols d lg).1.*1
    ⊆+ started (seed w dest_aggr cutover_action cutover_window total i vols d lg).2.
Proof.
  revert i d lg. induction vols as [|v vols IH]; intros i d lg H; [done|].
  simpl. apply IH.
  pose proof (accounted_start d [] lg v (submit' 0 v) (i + 1) total) as Hs.
  rewrite !app_nil_r in Hs. by apply Hs.
Qed.

Lemma reap_fold_accounted t todo st cn :
  NoDup todo.*1 → todo ⊆ in_progress st → SInv (length cn) st → accounted st →
  accounted (fold_left (reap_one t) todo (st, cn)).1.
Proof.
  revert st cn. induction todo as [|[v f] todo IH]; intros st cn Hnd Hsub Hinv Hacc;
    [done|].
  csimpl in Hnd. apply NoDup_cons in Hnd as [Hv Hnd].
  assert ((v, f) ∈ in_progress st) as Hin by (apply Hsub, elem_of_cons; by left).
  simpl. destruct (fut_ready f <=? t).
  - apply IH; [done| | |].
    + intros [k' f'] Hin'. simpl. apply list_elem_of_filter. split.
      * simpl. intros ->. apply Hv. apply list_elem_of_fmap. by exists (v, f').
      * apply Hsub. apply elem_of_cons; by right.
    + unfold state_inv. simpl. rewrite length_app. simpl.
      rewrite Nat.add_1_r. by apply inv_finish.
    + simpl. apply (accounted_finish _ _ _ v f); [by destruct Hinv|done| |done].
      rewrite started_snoc. destruct (fut_result f); by rewrite app_nil_r.
  - apply IH; [done| |done|done].
    intros x Hx. apply Hsub. apply elem_of_cons; by right.
Qed.

Lemma refill_accounted total t cn st :
  accounted st →
  accounted (refill w dest_aggr cutover_action cutover_window total t st cn).
Proof.
  revert st. induction cn as [|x cn IH]; intros st H; [done|].
  unfold refill. simpl. apply IH. unfold refill_one.
  destruct (remaining_volumes st) as [|next rest]; [done|].
  simpl. by apply accounted_start.
Qed.

Lemma turn_accounted total t st :
  SInv 0 st → accounted st →
  accounted (turn w dest_aggr cutover_action cutover_window total t st).
Proof.
  intros Hinv Hacc. unfold turn, reap.
  pose proof (reap_fold_accounted t (in_progress st) st []) as Hr.
  destruct (fold_left _ _ _) as [st1 cn]. apply refill_accounted.
  apply Hr; [by destruct Hinv|done|done|done].
Qed.

Lemma main_loop_accounted fuel total t st :
  SInv 0 st → accounted st →
  accounted (main_loop w dest_aggr cutover_action cutover_window fuel total t st).1.
Proof.
  revert t st. induction fuel as [|fuel IH]; intros t st Hinv Hacc; simpl.
  - by destruct (in_progress st) eqn:E; simpl; rewrite ?E.
  - destruct (in_progress st) eqn:E; [simpl; by rewrite E|].
    apply IH; [by apply turn_inv|]. apply turn_accounted; [done|]. by rewrite E.
Qed.
End Accounting.

Lemma scheduler_run_accounted (w : ControlPlane) (dest_aggr cutover_action : string)
    (cutover_window : Z) (fuel : nat) (vl : list string) (K : nat) :
  let st := (scheduler_run w dest_aggr cutover_action cutover_window fuel vl K).1 in
  (in_progress st).*1 ++ completed_volumes st ⊆+ started (sched_log st).
Proof.
  unfold scheduler_run.
  apply (main_loop_accounted w dest_aggr cutover_action cutover_window K vl).
  - apply scheduler_start_inv.
  - unfold scheduler_start.
    pose proof (seed_accounted w dest_aggr cutover_action cutover_window
                  (length vl) 0 (take K vl) [] []) as H.
    destruct (seed _ _ _ _ _ _ _ _ _) as [d lg]. simpl in *.
    rewrite app_nil_r. by apply H.
Qed.

Lemma filter_nil_all (f : string → bool) (l : list string) :
  filter (λ v, f v = false) l = [] → ∀ v, v ∈ l → f v = true.
Proof.
  intros Hnil v Hin. destruct (f v) eqn:E; [done|].
  assert (v ∈ filter (λ v, f v = false) l) as H by by apply list_elem_of_filter.
  rewrite Hnil in H. by apply elem_of_nil in H.
Qed.

Lemma filter_all_nil (f : string → bool) (l : list string) :
  (∀ v, v ∈ l → f v = true) → filter (λ v, f v = false) l = [].
Proof.
  intros Hall. induction l as [|x l IH]; [done|].
  rewrite filter_cons, decide_False.
  - apply IH. intros v Hv. apply Hall. apply elem_of_cons; by right.
  - rewrite Hall by (apply elem_of_cons; by left). done.
Qed.

(** X10. For any list, repeated names included, the report never counts
    more outcomes than there are targets, and every counted outcome is a
    target of the list. The call returns [True] only if every target's
    worker returned [True]; then no target is listed as failed and each
    target has its outcome. *)
Theorem true_means_all_moved (w : World) (dest_aggr cutover_action : string)
    (cutover_window : Z) (fuel : nat) (volume_list : list string)
    (max_concurrent timeout : Z) (ignore_health_check ret : bool)
    (summary : Summary) (st : Sched) :
  process_volume_list w dest_aggr cutover_action cutover_window fuel volume_list
    max_concurrent timeout ignore_health_check = Some (Finished ret summary st) →
  completed_volumes st ⊆+ volume_list ∧
  successfully_moved summary + failed_to_move summary = length (completed_volumes st) ∧
  successfully_moved summary + failed_to_move summary ≤ length volume_list ∧
  (ret = true →
     (∀ v, v ∈ volume_list →
        worker_result (plane w) dest_aggr cutover_action cutover_window v = true) ∧
     failed_list summary = [] ∧
     completed_volumes st ≡ₚ volume_list).
Proof.
  intros Hrun.
  apply process_volume_list_finished in Hrun as (HK & Hrun & -> & ->).
  pose proof (scheduler_run_accounted (plane w) dest_aggr cutover_action cutover_window
                fuel volume_list (Z.to_nat max_concurrent)) as Hacc.
  destruct (scheduler_run_drained w dest_aggr cutover_action cutover_window
              fuel volume_list (Z.to_nat max_concurrent)) as [Hip _];
    [lia|by rewrite Hrun|].
  rewrite Hrun in Hacc, Hip. simpl in Hacc, Hip. rewrite Hip in Hacc. simpl in Hacc.
  apply finished_run_facts in Hrun as (Hsta & _ & Hcnt & Hfail & _ & _); [|lia].
  rewrite Hsta in Hacc.
  pose proof (submseteq_length _ _ Hacc) as Hlen.
  split_and!; [done|done|simpl; lia|].
  rewrite Nat.eqb_eq. intros Hall.
  assert (failed_volumes st = []) as Hnil by (apply length_zero_iff_nil; lia).
  assert (completed_volumes st ≡ₚ volume_list) as Hperm
    by (apply submseteq_length_Permutation; [done|lia]).
  split_and!; [|done|done].
  intros v Hv. rewrite Hfail in Hnil.
  apply (filter_nil_all _ _ Hnil). by rewrite Hperm.
Qed.

(** The theorem on a list that names one volume twice: with both in
    flight at once one outcome is lost, and the run over two successful
    moves returns [False]. *)
Lemma true_means_all_moved_witness :
  ∃ st,
    process_volume_list (healthy cp_plain) "aggr1" "retry" 30 10 ["volB"; "volB"]
      2 86400 false
    = Some (Finished false {| total_processed := 2; successfully_moved := 1;
                              failed_to_move := 0; failed_list := [] |} st) ∧
    completed_volumes st ⊆+ ["volB"; "volB"] ∧
    1 + 0 = length (completed_volumes st) ∧ 1 + 0 ≤ 2.
Proof.
  eexists. split; [vm_compute; reflexivity|].
  match goal with |- context [completed_volumes ?s] => set (st := s) end.
  destruct (true_means_all_moved (healthy cp_plain) "aggr1" "retry" 30 10
              ["volB"; "volB"] 2 86400 false false
              {| total_processed := 2; successfully_moved := 1;
                 failed_to_move := 0; failed_list := [] |} st)
    as (H1 & H2 & H3 & _); [vm_compute; reflexivity|].
  split_and!; [exact H1|exact H2|exact H3].
Defined.

(** * The exit status of [main] *)

Lemma main_volumes_some (set_order : list string → list string) (a : Args) :
  supplied_volumes a ≠ [] →
  main_volumes set_order a = Some (set_order (supplied_volumes a)).
Proof. unfold main_volumes. by destruct (supplied_volumes a). Qed.

Lemma set_order_facts (set_order : list string → list string) (l : list string) :
  (∀ l, set_order l ≡ₚ elements (list_to_set l : gset string)) →
  NoDup (set_order l) ∧ ∀ v, v ∈ set_order l ↔ v ∈ l.
Proof.
  intros Hord. split.
  - rewrite Hord. apply NoDup_elements.
  - intros v. by rewrite Hord, elem_of_elements, elem_of_list_to_set.
Qed.

(** The value a finished run over distinct targets returns. *)
Lemma finished_return (w : World) (dest_aggr cutover_action : string)
    (cutover_window : Z) (fuel : nat) (vl : list string) (K : nat) (st : Sched) :
  0 < K → NoDup vl →
  scheduler_run (plane w) dest_aggr cutover_action cutover_window fuel vl K = (st, true) →
  (success_count st =? length vl) = true ↔
  ∀ v, v ∈ vl → worker_result (plane w) dest_aggr cutover_action cutover_window v = true.
Proof.
  intros HK Hnd Hrun.
  apply finished_run_facts in Hrun as (_ & _ & Hcnt & Hfail & _ & Hperm); [|done].
  specialize (Hperm Hnd). pose proof (Permutation_length Hperm) as Hlen.
  rewrite Nat.eqb_eq. split.
  - intros Hall v Hv.
    assert (failed_volumes st = []) as Hnil by (apply length_zero_iff_nil; lia).
    rewrite Hfail in Hnil. apply (filter_nil_all _ _ Hnil). by rewrite Hperm.
  - intros Hall. rewrite Hfail, filter_all_nil in Hcnt; [simpl in Hcnt; lia|].
    intros v Hv. apply Hall. by rewrite <- Hperm.
Qed.

(** X11. Given turns enough for the run, [main] exits with 0 or 1, and
    with 0 exactly when some volume was named, [--max-concurrent] is
    positive, the pre-flight check passes or is ignored, and the worker of
    every named volume returns [True]. *)
Theorem exit_status_zero_iff (set_order : list string → list string)
    (w : World) (fuel : nat) (a : Args) :
  (∀ l, set_order l ≡ₚ elements (list_to_set l : gset string)) →
  fuel_needed (plane w) (arg_dest_aggr a) (arg_cutover_action a) (arg_cutover_window a)
    (set_order (supplied_volumes a)) ≤ fuel →
  (main set_order w fuel a = Some 0 ∨ main set_order w fuel a = Some 1) ∧
  (main set_order w fuel a = Some 0 ↔
     supplied_volumes a ≠ [] ∧
     (0 < arg_max_concurrent a)%Z ∧
     (arg_ignore_health_check a = true ∨ health_probe_raises w = false) ∧
     ∀ v, v ∈ supplied_volumes a →
       worker_result (plane w) (arg_dest_aggr a) (arg_cutover_action a)
         (arg_cutover_window a) v = true).
Proof.
  intros Hord Hfuel. unfold main.
  destruct (decide (supplied_volumes a = [])) as [Hnil|Hsome].
  { unfold main_volumes. rewrite Hnil. split; [by right|]. split; [done|].
    by intros (? & _). }
  rewrite (main_volumes_some _ _ Hsome).
  destruct (set_order_facts set_order (supplied_volumes a) Hord) as [Hnd Hmem].
  set (vl := set_order (supplied_volumes a)) in *.
  destruct (process_volume_list w (arg_dest_aggr a) (arg_cutover_action a)
              (arg_cutover_window a) fuel vl (arg_max_concurrent a) (arg_timeout a)
              (arg_ignore_health_check a)) as [r|] eqn:Hrun.
  - destruct r as [| |ret summary st].
    + (* the pre-flight check fails *)
      split; [by right|]. split; [done|]. intros (_ & _ & Hpre & _). exfalso.
      revert Hrun. unfold process_volume_list, _check_destination_aggr_status.
      destruct Hpre as [-> | ->]; simpl; [|rewrite andb_false_r];
        by repeat case_match.
    + (* the executor refuses the bound *)
      split; [by right|]. split; [done|]. intros (_ & HK & _). exfalso.
      revert Hrun. unfold process_volume_list.
      destruct (Z.leb_spec (arg_max_concurrent a) 0); [lia|]. by repeat case_match.
    + pose proof Hrun as Hrun'.
      apply process_volume_list_finished in Hrun' as (HK & Hsched & -> & _).
      assert (0 < Z.to_nat (arg_max_concurrent a)) as HK' by lia.
      pose proof (finished_return w _ _ _ fuel vl _ st HK' Hnd Hsched) as Hret.
      assert (arg_ignore_health_check a = true ∨ health_probe_raises w = false) as Hpre.
      { revert Hrun. unfold process_volume_list, _check_destination_aggr_status.
        destruct (arg_ignore_health_check a); [by left|].
        destruct (health_probe_raises w); [done|by right]. }
      destruct (success_count st =? length vl) eqn:E.
      * split; [by left|]. split; [|done]. intros _. split_and!; try done.
        intros v Hv. apply Hret; [done|]. by apply Hmem.
      * split; [by right|]. split; [done|]. intros (_ & _ & _ & Hall).
        assert (false = true); [|done]. apply Hret. intros v Hv.
        apply Hall. by apply Hmem.
  - (* the turns are enough whenever the loop is entered *)
    exfalso. revert Hrun. unfold process_volume_list.
    repeat case_match; try done.
    pose proof (scheduler_run_ends w (arg_dest_aggr a) (arg_cutover_action a)
                  (arg_cutover_window a) fuel vl
                  (Z.to_nat (arg_max_concurrent a)) Hfuel) as Hend.
    match goal with H : scheduler_run _ _ _ _ _ _ _ = _ |- _ => rewrite H in Hend end.
    done.
Qed.

(** The theorem on two named volumes, one of them rejected at the start:
    the exit status is 1. *)
Lemma exit_status_zero_iff_witness :
  main sorted_set_order (healthy cp_volA_rejected) 200
    (sample_args None (Some ["volA"; "volB"]) 86400) = Some 1 ∧
  main sorted_set_order (healthy cp_plain) 200
    (sample_args None (Some ["volA"; "volB"]) 86400) = Some 0.
Proof.
  split; [vm_compute; reflexivity|].
  destruct (exit_status_zero_iff sorted_set_order (healthy cp_plain) 200
              (sample_args None (Some ["volA"; "volB"]) 86400)) as [_ [_ H]].
  - intros l. reflexivity.
  - vm_compute. lia.
  - apply H. split_and!; [done|reflexivity|by right|].
    intros v Hv. change (v ∈ ["volA"; "volB"]) in Hv.
    repeat (apply elem_of_cons in Hv as [->|Hv]; [vm_compute; reflexivity|]).
    by apply elem_of_nil in Hv.
Defined.

(** * How often a wait queries the job *)

Section WaitBounds.
Context (cp : ControlPlane) (volume_name job_id : string) (timeout start_time : Z).
Local Open Scope Z_scope.

Local Abbreviation loop := (wait_loop cp volume_name job_id timeout start_time).

(** Every query but the last is followed by a sleep of 30 seconds, and no
    query is made once [timeout] seconds have passed. *)
Lemma wait_loop_bounds now n last_percent last_log_time lg :
  let r := loop now n last_percent last_log_time lg in
  now ≤ wait_end r ∧
  (n ≤ wait_polls r)%nat ∧
  (wait_polls r = n ↔ timeout ≤ now - start_time) ∧
  now + poll_sleep * (Z.of_nat (wait_polls r) - Z.of_nat n) ≤ wait_end r + poll_sleep ∧
  (poll_sleep * Z.of_nat n ≤ now - start_time →
   wait_polls r = n ∨ poll_sleep * (Z.of_nat (wait_polls r) - 1) < timeout) ∧
  (wait_result r = true ↔ final_state r = Succeeded) ∧
  final_state r ≠ Polling.
Proof.
  remember (Z.to_nat (timeout - (now - start_time))) as m eqn:Hm.
  revert now n last_percent last_log_time lg Hm.
  induction m as [m IH] using lt_wf_ind.
  intros now n lp llt lg ->. cbv zeta. rewrite wait_loop_turn.
  destruct (Z.ltb_spec (now - start_time) timeout) as [Hlt|Hge].
  - pose proof (poll_turn_last cp volume_name job_id now n lp llt lg) as Hlast.
    destruct (poll_turn cp volume_name job_id now n lp llt lg) as [[[ret a] b] c].
    destruct ret as [res|]; simpl in *.
    + specialize (Hlast res eq_refl). unfold final_state, poll_sleep. simpl.
      rewrite Hlast. split_and!; try lia.
      * by destruct res.
      * by destruct res.
    + destruct (IH (Z.to_nat (timeout - (now + Z.of_N (job_latency cp job_id n)
                                         + poll_sleep - start_time)))
                  ltac:(unfold poll_sleep; lia)
                  (now + Z.of_N (job_latency cp job_id n) + poll_sleep) (S n) a b c
                  eq_refl)
        as (H1 & H2 & H3 & H4 & H5 & H6 & H7).
      unfold poll_sleep in *. split_and!; [lia|lia|split; intros; lia|lia| |exact H6|exact H7].
      intros Hn. right. destruct H5 as [H5|H5]; lia.
  - unfold final_state, poll_sleep. simpl. rewrite last_snoc.
    split_and!; try done; try lia.
Qed.
End WaitBounds.

(** X12. A wait makes no status query when [timeout] is not positive and
    otherwise at least one and at most one for every 30 seconds of
    [timeout], rounded up; it returns no earlier than 30 seconds for every
    query but the last after it began; and it returns [True] exactly when
    its last line reports the move as completed. *)
Theorem wait_polls_bounded (cp : ControlPlane) (volume_name job_id : string)
    (timeout now : Z) :
  let r := wait_for_move_completion cp volume_name job_id timeout now in
  (wait_polls r = 0 ↔ (timeout ≤ 0)%Z) ∧
  (Z.of_nat (wait_polls r) ≤ Z.max 0 ((timeout + 29) / 30))%Z ∧
  (now ≤ wait_end r)%Z ∧
  (now + 30 * (Z.of_nat (wait_polls r) - 1) ≤ wait_end r)%Z ∧
  (wait_result r = true ↔ final_state r = Succeeded) ∧
  final_state r ≠ Polling.
Proof.
  unfold wait_for_move_completion.
  destruct (wait_loop_bounds cp volume_name job_id timeout now now 0 (-1)%Z 0%Z [])
    as (H1 & _ & H3 & H4 & H5 & H6 & H7).
  cbv zeta. unfold poll_sleep in *.
  split_and!; [|  |done|lia|done|done].
  - rewrite H3. lia.
  - destruct H5 as [H5|H5]; [lia|rewrite H5; lia|].
    etrans; [|apply Z.le_max_r]. apply Z.div_le_lower_bound; lia.
Qed.

(** * What a worker does to the shared dictionaries *)

Section WorkerFrame.
Context (cp : ControlPlane) (dest_aggr cutover_action : string) (cutover_window : Z).

Local Abbreviation worker v timeout now sh :=
  (process_volume_move cp v dest_aggr cutover_action cutover_window timeout now sh).

(** The dictionaries a worker leaves, from the ones it found. *)
Lemma worker_shared v timeout now sh :
  let r := worker v timeout now sh in
  move_results (wr_shared r) = <[v := wr_result r]> (move_results sh) ∧
  active_moves (wr_shared r) =
    if (start_move cp v dest_aggr cutover_action cutover_window).1
    then delete v (active_moves sh) else active_moves sh.
Proof.
  unfold process_volume_move.
  destruct (start_move cp v dest_aggr cutover_action cutover_window) as [[|] result];
    simpl; [|done].
  split; [done|]. apply map_eq. intros k.
  destruct (decide (k = v)) as [->|Hne].
  - by rewrite !lookup_delete_eq.
  - by rewrite !lookup_delete_ne, lookup_insert_ne.
Qed.

Lemma worker_result_fixed v timeout now sh now' sh' :
  wr_result (worker v timeout now sh) = wr_result (worker v timeout now' sh').
Proof.
  destruct (process_volume_move_shift cp v dest_aggr cutover_action cutover_window
              timeout now sh) as [H _].
  destruct (process_volume_move_shift cp v dest_aggr cutover_action cutover_window
              timeout now' sh') as [H' _].
  cbv zeta in *. congruence.
Qed.
End WorkerFrame.

(** X13. A worker writes only under its own volume: it records what it
    returns in [move_results], leaves no entry of its volume in
    [active_moves] once the move was started (and leaves [active_moves] as
    it found it when the start failed), and changes no entry of another
    volume. So two workers on different volumes leave the same dictionaries
    in either order. *)
Theorem worker_writes_own_entries (cp : ControlPlane)
    (dest_aggr cutover_action : string) (cutover_window : Z)
    (v v' : string) (timeout timeout' now now' now1 now1' : Z) (sh : Shared) :
  v ≠ v' →
  let pvm := λ x, process_volume_move cp x dest_aggr cutover_action cutover_window in
  let r := pvm v timeout now sh in
  move_results (wr_shared r) !! v = Some (wr_result r) ∧
  move_results (wr_shared r) !! v' = move_results sh !! v' ∧
  active_moves (wr_shared r) !! v' = active_moves sh !! v' ∧
  ((start_move cp v dest_aggr cutover_action cutover_window).1 = true →
   active_moves (wr_shared r) !! v = None) ∧
  ((start_move cp v dest_aggr cutover_action cutover_window).1 = false →
   active_moves (wr_shared r) = active_moves sh ∧ wr_polls r = 0) ∧
  wr_shared (pvm v' timeout' now' (wr_shared r)) =
  wr_shared (pvm v timeout now1 (wr_shared (pvm v' timeout' now1' sh))).
Proof.
  intros Hne pvm r. subst pvm r.
  destruct (worker_shared cp dest_aggr cutover_action cutover_window v timeout now sh)
    as [Hm Ha].
  cbv zeta in *. split_and!.
  - rewrite Hm. apply lookup_insert_eq.
  - rewrite Hm. by apply lookup_insert_ne.
  - rewrite Ha. destruct (start_move _ _ _ _ _).1; [|done]. by apply lookup_delete_ne.
  - intros Hs. rewrite Ha, Hs. apply lookup_delete_eq.
  - intros Hs. rewrite Ha, Hs. split; [done|].
    unfold process_volume_move.
    destruct (start_move cp v dest_aggr cutover_action cutover_window) as [[|] ?];
      [done|reflexivity].
  - set (r1 := process_volume_move cp v dest_aggr cutover_action cutover_window
                 timeout now sh) in *.
    set (r2 := process_volume_move cp v' dest_aggr cutover_action cutover_window
                 timeout' now1' sh).
    destruct (worker_shared cp dest_aggr cutover_action cutover_window v' timeout' now'
                (wr_shared r1)) as [Hm12 Ha12].
    destruct (worker_shared cp dest_aggr cutover_action cutover_window v' timeout' now1'
                sh) as [Hm2 Ha2].
    destruct (worker_shared cp dest_aggr cutover_action cutover_window v timeout now1
                (wr_shared r2)) as [Hm21 Ha21].
    cbv zeta in *. fold r2 in Hm2, Ha2, Hm21, Ha21.
    rewrite (worker_result_fixed cp _ _ _ v' timeout' now' (wr_shared r1) now1' sh)
      in Hm12.
    rewrite (worker_result_fixed cp _ _ _ v timeout now1 (wr_shared r2) now sh)
      in Hm21.
    fold r1 r2 in Hm12, Hm21.
    destruct (wr_shared (process_volume_move cp v' _ _ _ timeout' now' (wr_shared r1)))
      as [am12 mr12].
    destruct (wr_shared (process_volume_move cp v _ _ _ timeout now1 (wr_shared r2)))
      as [am21 mr21].
    simpl in *. f_equal.
    + rewrite Ha12, Ha21, Ha, Ha2.
      destruct (start_move cp v _ _ _).1, (start_move cp v' _ _ _).1; try done.
      apply delete_delete.
    + rewrite Hm12, Hm21, Hm, Hm2. by apply insert_insert_ne.
Qed.

(** The theorem on a rejected start that finds a stale entry of its volume. *)
Lemma worker_writes_own_entries_witness :
  move_results (wr_shared (process_volume_move cp_volA_rejected "volA" "aggr1" "retry"
    30 60 0 {| active_moves := {["volA" := "job-old"]}; move_results := ∅ |}))
    !! "volA" = Some false ∧
  active_moves (wr_shared (process_volume_move cp_volA_rejected "volA" "aggr1" "retry"
    30 60 0 {| active_moves := {["volA" := "job-old"]}; move_results := ∅ |}))
    !! "volA" = Some "job-old" ∧
  move_results (wr_shared (process_volume_move cp_volA_rejected "volA" "aggr1" "retry"
    30 60 0 {| active_moves := {["volA" := "job-old"]}; move_results := ∅ |}))
    !! "volB" = None.
Proof.
  destruct (worker_writes_own_entries cp_volA_rejected "aggr1" "retry" 30
              "volA" "volB" 60 60 0 0 0 0
              {| active_moves := {["volA" := "job-old"]}; move_results := ∅ |})
    as (H1 & H2 & _ & _ & H5 & _); [done|].
  cbv zeta in *. destruct (H5 eq_refl) as [H5a _].
  split_and!.
  - rewrite H1. vm_compute. reflexivity.
  - rewrite H5a. reflexivity.
  - rewrite H2. reflexivity.
Defined.

(** * The counter shown in the "Started" lines *)

Lemma started_counts_snoc lg e :
  started_counts (lg ++ [e]) =
  started_counts lg ++ match e with LogStarted _ k total => [(k, total)] | _ => [] end.
Proof. unfold started_counts. rewrite omap_app. by destruct e. Qed.

Section Counter.
Context (w : ControlPlane) (dest_aggr cutover_action : string) (cutover_window : Z).
Context (K : nat) (vl : list string) (total : nat).
Context (Hdistinct : NoDup vl).

Local Abbreviation Inv := (SchedInv w dest_aggr cutover_action cutover_window K vl).
Local Abbreviation SInv := (state_inv w dest_aggr cutover_action cutover_window K vl).

(** The lines so far count 1, 2, 3, ... *)
Local Abbreviation counted lg :=
  (started_counts lg = (λ i, (i, total)) <$> seq 1 (length (started lg))).

Lemma counted_started lg v :
  counted lg →
  counted (lg ++ [LogStarted v (length (started lg) + 1) total]).
Proof.
  intros H. rewrite started_counts_snoc, started_snoc, length_app, H. simpl.
  rewrite seq_app, fmap_app. simpl. by rewrite Nat.add_1_r.
Qed.

Lemma counted_finished lg e :
  started (lg ++ [e]) = started lg → counted lg → counted (lg ++ [e]).
Proof.
  intros Hs H. rewrite Hs, started_counts_snoc, H.
  destruct e; [|by rewrite app_nil_r..].
  rewrite started_snoc in Hs. apply (f_equal length) in Hs.
  rewrite length_app in Hs. simpl in Hs. lia.
Qed.

Lemma seed_counted c vols rest i d lg :
  Inv (length vols + c) (vols ++ rest) d [] 0 [] lg →
  length (started lg) = i → counted lg →
  counted (seed w dest_aggr cutover_action cutover_window total i vols d lg).2.
Proof.
  revert i d lg. induction vols as [|v vols IH]; intros i d lg Hinv Hi Hc; [done|].
  simpl. apply IH.
  - by apply inv_start.
  - rewrite started_snoc, length_app. simpl. lia.
  - subst i. by apply counted_started.
Qed.

Lemma reap_fold_counted t todo st cn :
  counted (sched_log st) →
  counted (sched_log (fold_left (reap_one t) todo (st, cn)).1).
Proof.
  revert st cn. induction todo as [|[v f] todo IH]; intros st cn H; [done|].
  simpl. destruct (fut_ready f <=? t); [|by apply IH].
  apply IH. simpl. apply counted_finished; [|done].
  rewrite started_snoc. destruct (fut_result f); by rewrite app_nil_r.
Qed.

Lemma refill_counted t cn st :
  SInv (length cn) st → counted (sched_log st) →
  counted (sched_log (refill w dest_aggr cutover_action cutover_window total t st cn)).
Proof.
  revert st. induction cn as [|x cn IH]; intros st Hinv Hc; [done|].
  unfold refill. simpl.
  assert (SInv (length cn) (refill_one w dest_aggr cutover_action cutover_window
                              total t st x)) as Hinv'.
  { unfold refill_one. unfold state_inv in Hinv. simpl in Hinv.
    destruct (remaining_volumes st) as [|next rest] eqn:Hrem.
    - unfold state_inv. rewrite Hrem. by apply inv_weaken.
    - unfold state_inv. simpl. by apply inv_start. }
  apply IH; [done|].
  unfold refill_one in *. destruct (remaining_volumes st) as [|next rest]; [done|].
  simpl in *.
  destruct Hinv' as [_ _ _ _ _ _ _ _ _ _ _ Hperm]. simpl in Hperm.
  specialize (Hperm Hdistinct). apply Permutation_length in Hperm.
  rewrite length_app, length_fmap, started_snoc, length_app in Hperm. simpl in Hperm.
  replace (length (completed_volumes st) + length _)
    with (length (started (sched_log st)) + 1) by lia.
  by apply counted_started.
Qed.

Lemma turn_counted t st :
  SInv 0 st → counted (sched_log st) →
  counted (sched_log (turn w dest_aggr cutover_action cutover_window total t st)).
Proof.
  intros Hinv Hc. unfold turn.
  pose proof (reap_inv w dest_aggr cutover_action cutover_window K vl t st Hinv) as Hr.
  pose proof (reap_fold_counted t (in_progress st) st [] Hc) as Hrc.
  unfold reap in *. destruct (fold_left _ _ _) as [st1 cn].
  by apply refill_counted.
Qed.

Lemma main_loop_counted fuel t st :
  SInv 0 st → counted (sched_log st) →
  counted (sched_log (main_loop w dest_aggr cutover_action cutover_window
                        fuel total t st).1).
Proof.
  revert t st. induction fuel as [|fuel IH]; intros t st Hinv Hc; simpl.
  - by destruct (in_progress st).
  - destruct (in_progress st) eqn:E; [done|].
    apply IH; [by apply turn_inv|by apply turn_counted].
Qed.

Lemma scheduler_start_counted :
  total = length vl →
  counted (sched_log (scheduler_start w dest_aggr cutover_action cutover_window vl K)).
Proof.
  intros Htotal. unfold scheduler_start. rewrite <- Htotal.
  pose proof (seed_counted 0 (take K vl) (drop K vl) 0 [] []) as H.
  destruct (seed _ _ _ _ _ _ _ _ _) as [d lg]. simpl in *.
  apply H; [|done|done]. rewrite take_drop.
  apply (inv_weaken_by _ _ _ _ _ _ _ (K - length (take K vl))).
  replace (K - length (take K vl) + (length (take K vl) + 0)) with K
    by (rewrite length_take; lia).
  apply inv_init.
Qed.
End Counter.

(** X14. Over distinct targets, the "Started" lines of a run count up: the
    j-th of them reads (j/total), whether the target was part of the first
    batch or took a freed slot, so the last one reads (total/total). *)
Theorem started_lines_count_up (w : World) (dest_aggr cutover_action : string)
    (cutover_window : Z) (fuel : nat) (volume_list : list string)
    (max_concurrent timeout : Z) (ignore_health_check ret : bool)
    (summary : Summary) (st : Sched) :
  NoDup volume_list →
  process_volume_list w dest_aggr cutover_action cutover_window fuel volume_list
    max_concurrent timeout ignore_health_check = Some (Finished ret summary st) →
  started (sched_log st) = volume_list ∧
  started_counts (sched_log st)
    = (λ j, (j, length volume_list)) <$> seq 1 (length volume_list) ∧
  last (started_counts (sched_log st))
    = match volume_list with
      | [] => None
      | _ :: _ => Some (length volume_list, length volume_list)
      end.
Proof.
  intros Hnd Hrun.
  apply process_volume_list_finished in Hrun as (HK & Hrun & _ & _).
  pose proof (main_loop_counted (plane w) dest_aggr cutover_action cutover_window
                (Z.to_nat max_concurrent) volume_list (length volume_list) Hnd fuel 0
                (scheduler_start (plane w) dest_aggr cutover_action cutover_window
                   volume_list (Z.to_nat max_concurrent))
                (scheduler_start_inv _ _ _ _ _ _)
                (scheduler_start_counted _ _ _ _ _ _ _ eq_refl)) as Hc.
  fold (scheduler_run (plane w) dest_aggr cutover_action cutover_window fuel
          volume_list (Z.to_nat max_concurrent)) in Hc.
  rewrite Hrun in Hc. simpl in Hc.
  apply finished_run_facts in Hrun as (Hsta & _); [|lia].
  rewrite Hsta in Hc. split_and!; [done|done|].
  rewrite Hc. destruct volume_list as [|v l _] using rev_ind; [done|].
  rewrite length_app. simpl. rewrite Nat.add_1_r, seq_S, fmap_app. simpl.
  rewrite last_snoc. by destruct l.
Qed.

(** The theorem on three targets and two slots. *)
Lemma started_lines_count_up_witness :
  ∃ st,
    process_volume_list (healthy cp_volA_rejected) "aggr1" "retry" 30 200
      ["volA"; "volB"; "volC"] 2 86400 false
    = Some (Finished false {| total_processed := 3; successfully_moved := 1;
                              failed_to_move := 2; failed_list := ["volA"; "volC"] |} st) ∧
    started_counts (sched_log st) = [(1, 3); (2, 3); (3, 3)].
Proof.
  eexists. split; [vm_compute; reflexivity|].
  match goal with |- context [sched_log ?s] => set (st := s) end.
  apply (started_lines_count_up (healthy cp_volA_rejected) "aggr1" "retry" 30 200
           ["volA"; "volB"; "volC"] 2 86400 false false
           {| total_processed := 3; successfully_moved := 1;
              failed_to_move := 2; failed_list := ["volA"; "volC"] |} st).
  - by_decide.
  - vm_compute. reflexivity.
Defined.

(** * The duration of the final report *)

(** X15. The hours, minutes and seconds of the final report add up to the
    whole seconds of the run, with minutes and seconds between 0 and 59;
    the hours are not bounded and are negative exactly for a negative
    duration. Different durations are reported differently. *)
Theorem duration_adds_up (total_seconds : Z) :
  let '(hours, minutes, seconds) := duration_hms total_seconds in
  (hours * 3600 + minutes * 60 + seconds = total_seconds)%Z ∧
  (0 ≤ minutes < 60)%Z ∧ (0 ≤ seconds < 60)%Z ∧
  (0 ≤ hours ↔ 0 ≤ total_seconds)%Z ∧
  ∀ t', duration_hms t' = duration_hms total_seconds → t' = total_seconds.
Proof.
  unfold duration_hms.
  pose proof (Z.div_mod total_seconds 3600 ltac:(lia)) as H1.
  pose proof (Z.mod_pos_bound total_seconds 3600 ltac:(lia)) as H2.
  pose proof (Z.div_mod (total_seconds mod 3600) 60 ltac:(lia)) as H3.
  pose proof (Z.mod_pos_bound (total_seconds mod 3600) 60 ltac:(lia)) as H4.
  assert (0 ≤ total_seconds mod 3600 / 60 < 60)%Z as H5.
  { split; [apply Z.div_pos; lia|apply Z.div_lt_upper_bound; lia]. }
  split_and!; try lia.
  intros t' [= Ha Hb Hc].
  pose proof (Z.div_mod t' 3600 ltac:(lia)) as H1'.
  pose proof (Z.div_mod (t' mod 3600) 60 ltac:(lia)) as H3'.
  lia.
Qed.

(** * The checks of the volume and of the node *)

(** X16. [_check_destination_node_status] returns [True] exactly when the
    first node found has both attributes set and its state is "online";
    the value of the health attribute changes only the warning. It returns
    [False] exactly when it logs a line at level error, and every run logs
    at most two lines. *)
Theorem node_check_follows_state (nodes : Collection NodeRecord) :
  let '(ret, lg) := _check_destination_node_status nodes in
  (ret = true ↔
     ∃ node rest health,
       nodes = Records (node :: rest) ∧ node_health node = Some health ∧
       node_state node = Some "online") ∧
  (ret = false ↔ ∃ e, e ∈ lg ∧ is_error_line e = true) ∧
  length lg ≤ 2 ∧
  ∀ node rest health health',
    nodes = Records (node :: rest) → node_health node = Some health →
    (_check_destination_node_status
       (Records ({| node_health := Some health'; node_state := node_state node |}
                 :: rest))).1 = ret.
Proof.
  destruct nodes as [| |[|[h s] rest]]; simpl.
  - split_and!; [split; [done|by intros (? & ? & ? & ? & _)]| |lia|done].
    split; [|done]. intros _. exists LogNodeApiError. split; [|done].
    apply elem_of_cons; by left.
  - split_and!; [split; [done|by intros (? & ? & ? & ? & _)]| |lia|done].
    split; [|done]. intros _. exists LogNodeError. split; [|done].
    apply elem_of_cons; by left.
  - split_and!; [split; [done|by intros (? & ? & ? & ? & _)]| |lia|done].
    split; [|done]. intros _. exists LogNodeNotFound. split; [|done].
    apply elem_of_cons; by left.
  - destruct h as [h|]; [destruct s as [s|]|]; simpl.
    + split_and!.
      * rewrite bool_decide_eq_true. split.
        -- intros ->. by eexists _, _, _.
        -- intros (n & r & h' & [= <- <-] & _ & Hs). simpl in Hs. by simplify_eq.
      * split.
        -- intros Hoff. rewrite Hoff. exists (LogNodeNotOnline s). split; [|done].
           apply elem_of_app. right. apply elem_of_cons; by left.
        -- intros (e & He & Herr). destruct (bool_decide (s = "online")); [|done].
           rewrite app_nil_r in He. destruct (bool_decide (h = "true")).
           ++ by apply elem_of_nil in He.
           ++ apply list_elem_of_singleton in He. by subst e.
      * rewrite length_app. by destruct (bool_decide _), (bool_decide _); simpl; lia.
      * intros n r h1 h2 [= <- <-] _. done.
    + split_and!; [split; [done|by intros (? & ? & ? & [= <- <-] & _ & ?)]| |lia|].
      * split; [|done]. intros _. exists LogNodeError. split; [|done].
        apply elem_of_cons; by left.
      * intros n r h1 h2 [= <- <-] _. done.
    + split_and!; [split; [done|by intros (? & ? & ? & [= <- <-] & ? & _)]| |lia|].
      * split; [|done]. intros _. exists LogNodeError. split; [|done].
        apply elem_of_cons; by left.
      * intros n r h1 h2 [= <- <-] Hh. done.
Qed.

(** * The REST script *)

Section VolMoves.
Context (source_aggr : string) (detail : nat → Rest.Json → Rest.Response).

Local Abbreviation step := (Rest.vol_move_step source_aggr detail).

Lemma vol_move_fold_raised l : foldl step None l = None.
Proof. by induction l. Qed.

(** One record: the position moves on, a healthy record is counted, and
    the second counter grows only with the first. *)
Lemma vol_move_step_spec i c m r i' c' m' :
  step (Some (i, c, m)) r = Some (i', c', m') →
  i' = S i ∧
  c' = c + (if Rest.healthy_record r then 1 else 0) ∧
  m ≤ m' ∧ m' - m ≤ c' - c ∧
  (Rest.healthy_record r = true → Rest.has_uuid r = true).
Proof.
  unfold Rest.vol_move_step, Rest.healthy_record, Rest.has_uuid. simpl.
  destruct (Rest.py_get r "state" Rest.JNull) as [state|]; simpl; [|done].
  destruct (Rest.py_eq_str state "healthy"); simpl;
    [|intros [= <- <- <-]; split_and!; [done|lia|lia|lia|done]].
  destruct (Rest.py_item r "uuid") as [uuid|]; simpl; [|done].
  destruct (detail i uuid) as [|status body]; [done|].
  destruct (status =? 200)%Z;
    [|intros [= <- <- <-]; split_and!; [done|lia|lia|lia|done]].
  destruct body as [d|]; simpl; [|done].
  destruct (Rest.py_get d "source_aggregate" _) as [sa|]; simpl; [|done].
  destruct (Rest.py_get sa "name" _) as [name|]; simpl; [|done].
  destruct (Rest.py_get d "volume" _) as [vol|]; simpl; [|done].
  destruct (Rest.py_get vol "name" _) as [?|]; simpl; [|done].
  destruct (Rest.py_get d "destination_aggregate" _) as [da|]; simpl; [|done].
  destruct (Rest.py_get da "name" _) as [?|]; simpl; [|done].
  destruct (Rest.py_get d "percent_complete" _) as [?|]; simpl; [|done].
  intros [= <- <- <-].
  destruct (Rest.py_eq_str name source_aggr); split_and!; try done; lia.
Qed.

Lemma vol_move_fold_spec l i c m i' c' m' :
  foldl step (Some (i, c, m)) l = Some (i', c', m') →
  c' = c + length (filter (λ r, Rest.healthy_record r = true) l) ∧
  m ≤ m' ∧ m' - m ≤ c' - c ∧
  ∀ r, r ∈ l → Rest.healthy_record r = true → Rest.has_uuid r = true.
Proof.
  revert i c m. induction l as [|r l IH]; intros i c m; cbn [foldl].
  - intros [= <- <- <-]. simpl. split_and!; [lia|lia|lia|]. by intros ? ?%elem_of_nil.
  - destruct (step (Some (i, c, m)) r) as [[[i1 c1] m1]|] eqn:Hstep;
      [|by rewrite vol_move_fold_raised].
    apply vol_move_step_spec in Hstep as (-> & -> & H1 & H2 & H3).
    intros (-> & H4 & H5 & H6)%IH. split_and!.
    + destruct (Rest.healthy_record r) eqn:Hh.
      * rewrite filter_cons_True by done. simpl. lia.
      * rewrite filter_cons_False by (by rewrite Hh). lia.
    + lia.
    + lia.
    + intros r' [->|Hin]%elem_of_cons; [done|by apply H6].
Qed.

(** A string met where a record is expected raises. *)
Lemma vol_move_fold_strings l a b :
  Forall (λ x, ∃ s, x = Rest.JStr s) l →
  foldl step (Some a) l = Some b → l = [].
Proof.
  destruct l as [|x l]; [done|]. intros [(s & ->) _]%Forall_cons.
  destruct a as [[i c] m]. cbn [foldl].
  replace (step (Some (i, c, m)) (Rest.JStr s)) with (@None (nat * nat * nat))
    by reflexivity.
  by rewrite vol_move_fold_raised.
Qed.
End VolMoves.

(** X17. The two counters of [get_vol_moves]: the moves of the source
    aggregate are never more than the healthy moves. A positive count
    means that the listing answered 200 with an object whose "records" is
    a list, that the count is the number of its healthy records and that
    each of those has a "uuid". Any other status, any exception, and so a
    single healthy record without "uuid", gives [(0, 0)]. *)
Theorem vol_moves_counters (source_aggr : string) (listing : Rest.Response)
    (detail : nat → Rest.Json → Rest.Response) :
  let '(counter, multi_counter) := Rest.get_vol_moves source_aggr listing detail in
  multi_counter ≤ counter ∧
  (0 < counter →
     ∃ data records,
       listing = Rest.Reply 200 (Some data) ∧
       Rest.py_get data "records" (Rest.JArr []) = Some (Rest.JArr records) ∧
       counter = length (filter (λ r, Rest.healthy_record r = true) records) ∧
       ∀ r, r ∈ records → Rest.healthy_record r = true → Rest.has_uuid r = true) ∧
  ((∀ data, listing ≠ Rest.Reply 200 (Some data)) → counter = 0 ∧ multi_counter = 0) ∧
  (∀ data records r,
     listing = Rest.Reply 200 (Some data) →
     Rest.py_get data "records" (Rest.JArr []) = Some (Rest.JArr records) →
     r ∈ records → Rest.healthy_record r = true → Rest.has_uuid r = false →
     counter = 0 ∧ multi_counter = 0).
Proof.
  unfold Rest.get_vol_moves.
  destruct listing as [|status body];
    [split_and!; [lia|intros; lia|done|done]|].
  destruct (Z.eqb_spec status 200) as [->|Hne]; simpl;
    [|split_and!; [lia|intros; lia|done|done]].
  destruct body as [data|]; simpl;
    [|split_and!; [lia|intros; lia|done|done]].
  destruct (Rest.py_get data "records" (Rest.JArr [])) as [records|] eqn:Hrec; simpl;
    [|split_and!; [lia|intros; lia|done|done]].
  destruct (Rest.py_iter records) as [items|] eqn:Hit; simpl;
    [|split_and!; [lia|intros; lia|done|done]].
  destruct (foldl _ _ items) as [[[i c] m]|] eqn:Hfold;
    [|split_and!; [lia|intros; lia|done|done]].
  pose proof (vol_move_fold_spec _ _ _ _ _ _ _ _ _ Hfold) as (Hc & _ & Hm & Huuid).
  simpl in Hc. split_and!.
  - lia.
  - intros Hpos. exists data.
    destruct records as [| | |s|l|fields]; simpl in Hit; try done.
    + injection Hit as <-.
      apply vol_move_fold_strings in Hfold; [|by apply Forall_fmap, Forall_true; eauto].
      rewrite Hfold in Hc. simpl in Hc. lia.
    + injection Hit as <-. by exists l.
    + injection Hit as <-.
      apply vol_move_fold_strings in Hfold; [|by apply Forall_fmap, Forall_true; eauto].
      rewrite Hfold in Hc. simpl in Hc. lia.
  - intros Hno. by destruct (Hno data).
  - intros d l r [= <-] Hl Hin Hh Hu. rewrite Hrec in Hl. injection Hl as ->.
    simpl in Hit. injection Hit as <-.
    rewrite (Huuid r Hin Hh) in Hu. done.
Qed.

Section Admission.
Context (observe : nat → nat * nat).

(** The wait ends at the first call that reports fewer than two moves of
    the source aggregate. *)
Lemma wait_for_slot_spec fuel n counter multi_counter n' :
  Rest.wait_for_slot observe fuel n = Some (counter, multi_counter, n') →
  ∃ k, k ≤ fuel ∧ n' = S (n + k) ∧ observe (n + k) = (counter, multi_counter) ∧
       multi_counter < 2 ∧ ∀ j, j < k → 2 ≤ (observe (n + j)).2.
Proof.
  revert n. induction fuel as [|fuel IH]; intros n; cbn [Rest.wait_for_slot].
  - destruct (observe n) as [c m] eqn:Hobs.
    destruct (Nat.leb_spec 2 m); [done|]. intros [= <- <- <-].
    exists 0. rewrite Nat.add_0_r. split_and!; [lia|done|done|lia|lia].
  - destruct (observe n) as [c m] eqn:Hobs.
    destruct (Nat.leb_spec 2 m) as [Hge|Hlt].
    + intros (k & Hk & -> & Ho & Hm & Hbefore)%IH.
      exists (S k). replace (n + S k) with (S n + k) by lia.
      split_and!; [lia|done|done|done|].
      intros [|j] Hj.
      * rewrite Nat.add_0_r, Hobs. done.
      * replace (n + S j) with (S n + j) by lia. apply Hbefore. lia.
    + intros [= <- <- <-].
      exists 0. rewrite Nat.add_0_r. split_and!; [lia|done|done|lia|lia].
Qed.

Lemma wait_for_slot_ends fuel n :
  (∃ k, k ≤ fuel ∧ (observe (n + k)).2 < 2) →
  is_Some (Rest.wait_for_slot observe fuel n).
Proof.
  revert n. induction fuel as [|fuel IH]; intros n (k & Hk & Hm);
    cbn [Rest.wait_for_slot].
  - assert (k = 0) as -> by lia. rewrite Nat.add_0_r in Hm.
    destruct (observe n) as [c m]. simpl in Hm.
    destruct (Nat.leb_spec 2 m); [lia|done].
  - destruct (observe n) as [c m] eqn:Hobs.
    destruct (Nat.leb_spec 2 m) as [Hge|Hlt]; [|done].
    apply IH. destruct k as [|k].
    + rewrite Nat.add_0_r, Hobs in Hm. simpl in Hm. lia.
    + exists k. split; [lia|]. by replace (S n + k) with (n + S k) by lia.
Qed.
End Admission.

Lemma get_vol_moves_le (source_aggr : string) (listing : Rest.Response)
    (detail : nat → Rest.Json → Rest.Response) :
  (Rest.get_vol_moves source_aggr listing detail).2
    ≤ (Rest.get_vol_moves source_aggr listing detail).1.
Proof.
  unfold Rest.get_vol_moves.
  destruct listing as [|status body]; [done|].
  destruct (negb _); [done|].
  destruct (_ ≫= _) as [[[i c] m]|] eqn:Hfold; [|done].
  destruct body as [data|]; [|done]. simpl in Hfold.
  destruct (Rest.py_get data _ _) as [records|]; [|done]. simpl in Hfold.
  destruct (Rest.py_iter records) as [items|]; [|done]. simpl in Hfold.
  apply vol_move_fold_spec in Hfold as (_ & _ & H & _). simpl. lia.
Qed.

Lemma get_vol_moves_failed (source_aggr : string) (listing : Rest.Response)
    (detail : nat → Rest.Json → Rest.Response) :
  (∀ data, listing ≠ Rest.Reply 200 (Some data)) →
  Rest.get_vol_moves source_aggr listing detail = (0, 0).
Proof.
  intros Hno. unfold Rest.get_vol_moves.
  destruct listing as [|status body]; [done|].
  destruct (Z.eqb_spec status 200) as [->|Hne]; [|done].
  destruct body as [data|]; [|done]. by destruct (Hno data).
Qed.

Section Run.
Context (c : Rest.Cluster) (source_aggr : string) (fuel : nat).

Local Abbreviation observe :=
  (λ k, Rest.get_vol_moves source_aggr (Rest.listing c k) (Rest.detail c k)).

(** What a decision says about the turn of the loop it was taken in. *)
Local Abbreviation explained i d :=
  (match d with
   | Rest.NotFound => Rest.volume_found c i = false
   | Rest.AlreadyMoving =>
       Rest.volume_found c i = true ∧ Rest.existing_move c i = true
   | Rest.StartRequested counter =>
       Rest.volume_found c i = true ∧ Rest.existing_move c i = false ∧
       ∃ n multi_counter,
         observe n = (counter, multi_counter) ∧ multi_counter ≤ counter ∧ counter < 2
   | Rest.Skipped counter multi_counter =>
       Rest.volume_found c i = true ∧ Rest.existing_move c i = false ∧
       ∃ n, observe n = (counter, multi_counter) ∧ multi_counter < 2 ∧ 2 ≤ counter
   end).

Lemma run_loop_spec vl i n acc ds e :
  Rest.run_loop c source_aggr fuel i n vl acc = Some (ds, e) →
  ∃ ds', ds = acc ++ ds' ∧
    ds'.*1 `prefix_of` vl ∧
    (e = Rest.Completed → ds'.*1 = vl) ∧
    (e = Rest.ScriptFailed →
       ∃ v counter, last ds' = Some (v, Rest.StartRequested counter) ∧
                    Rest.start_raises c (i + length ds' - 1) = true) ∧
    ∀ j v d, ds' !! j = Some (v, d) → explained (i + j) d.
Proof.
  revert i n acc. induction vl as [|vol vl IH]; intros i n acc; cbn [Rest.run_loop].
  { intros [= <- <-]. exists []. rewrite app_nil_r. split_and!; try done. }
  assert (∀ d n', explained i d →
            Rest.run_loop c source_aggr fuel (S i) n' vl (acc ++ [(vol, d)]) = Some (ds, e) →
            ∃ ds', ds = acc ++ ds' ∧ ds'.*1 `prefix_of` vol :: vl ∧
              (e = Rest.Completed → ds'.*1 = vol :: vl) ∧
              (e = Rest.ScriptFailed →
                 ∃ v counter, last ds' = Some (v, Rest.StartRequested counter) ∧
                              Rest.start_raises c (i + length ds' - 1) = true) ∧
              ∀ j v d, ds' !! j = Some (v, d) → explained (i + j) d) as Hnext.
  { intros d n' Hd (ds' & -> & Hpre & Hall & Hfail & Hex)%IH.
    exists ((vol, d) :: ds'). split_and!.
    - by rewrite <- app_assoc.
    - csimpl. by apply prefix_cons.
    - intros He. csimpl. by rewrite (Hall He).
    - intros He. destruct (Hfail He) as (v & k & Hlast & Hraise).
      exists v, k. split.
      + destruct ds' as [|x ds']; [done|]. done.
      + destruct ds' as [|x ds']; [done|]. simpl in *.
        by replace (i + S (S (length ds')) - 1) with (S i + S (length ds') - 1) by lia.
    - intros [|j] v d' Hj.
      + rewrite Nat.add_0_r. by simplify_eq/=.
      + replace (i + S j) with (S i + j) by lia. by eapply Hex. }
  destruct (Rest.volume_found c i) eqn:Hfound; simpl; [|by apply Hnext].
  destruct (Rest.existing_move c i) eqn:Hexist; [by apply Hnext|].
  destruct (Rest.wait_for_slot _ fuel n) as [[[counter multi] n']|] eqn:Hwait; [|done].
  apply wait_for_slot_spec in Hwait as (k & _ & -> & Hobs & Hm & _).
  pose proof (get_vol_moves_le source_aggr (Rest.listing c (n + k))
                (Rest.detail c (n + k))) as Hle.
  rewrite Hobs in Hle. simpl in Hle.
  destruct (Nat.ltb_spec counter 2) as [Hc|Hc]; simpl.
  - destruct (Nat.ltb_spec multi 2) as [_|?]; [|lia]. simpl.
    destruct (Rest.start_raises c i) eqn:Hraise;
      [|apply Hnext; split_and!; [done|done|]; by exists (n + k), multi].
    intros [= <- <-]. exists [(vol, Rest.StartRequested counter)].
    split_and!; [done|csimpl; by apply prefix_cons, prefix_nil|done| |].
    + intros _. exists vol, counter. split; [done|]. simpl.
      by replace (i + 1 - 1) with i by lia.
    + intros [|j] v d Hj; [|done]. rewrite Nat.add_0_r. simplify_eq/=.
      split_and!; [done|done|]. by exists (n + k), multi.
  - apply Hnext. split_and!; [done|done|]. by exists (n + k).
Qed.

Lemma run_loop_ends vl i n acc :
  (∀ n, ∃ k, k ≤ fuel ∧ (observe (n + k)).2 < 2) →
  is_Some (Rest.run_loop c source_aggr fuel i n vl acc).
Proof.
  intros Hlive. revert i n acc.
  induction vl as [|vol vl IH]; intros i n acc; cbn [Rest.run_loop]; [done|].
  destruct (negb _); [apply IH|]. destruct (Rest.existing_move c i); [apply IH|].
  destruct (wait_for_slot_ends observe fuel n (Hlive n)) as [[[counter multi] n'] ->].
  destruct (_ && _); [|apply IH]. destruct (Rest.start_raises c i); [done|apply IH].
Qed.
End Run.

(** X18. What [run] decides for the volumes of its list. Every volume gets
    one decision, in the order of the list, up to the volume at which
    [start_volume_move] raised. A volume that is not found or has a move
    already is never started. A start is requested only after a call of
    [get_vol_moves] that counted fewer than two healthy moves, and a volume
    is skipped for good only after one that counted two or more of them but
    fewer than two of the source aggregate. When no listing answers 200
    with a body, every volume that is found and not moving is started,
    however many moves are running. *)
Theorem run_admission (c : Rest.Cluster) (source_aggr : string) (fuel : nat)
    (volume_list : list string) (ds : list (string * Rest.Decision)) (e : Rest.RunEnd) :
  Rest.run c source_aggr fuel volume_list = Some (ds, e) →
  ds.*1 `prefix_of` volume_list ∧
  (e = Rest.Completed → ds.*1 = volume_list) ∧
  (e = Rest.ScriptFailed →
     ∃ v counter, last ds = Some (v, Rest.StartRequested counter) ∧
                  Rest.start_raises c (length ds - 1) = true) ∧
  (∀ i v d, ds !! i = Some (v, d) →
     match d with
     | Rest.NotFound => Rest.volume_found c i = false
     | Rest.AlreadyMoving =>
         Rest.volume_found c i = true ∧ Rest.existing_move c i = true
     | Rest.StartRequested counter =>
         Rest.volume_found c i = true ∧ Rest.existing_move c i = false ∧
         ∃ n multi_counter,
           Rest.get_vol_moves source_aggr (Rest.listing c n) (Rest.detail c n)
             = (counter, multi_counter) ∧
           multi_counter ≤ counter ∧ counter < 2
     | Rest.Skipped counter multi_counter =>
         Rest.volume_found c i = true ∧ Rest.existing_move c i = false ∧
         ∃ n, Rest.get_vol_moves source_aggr (Rest.listing c n) (Rest.detail c n)
                = (counter, multi_counter) ∧
              multi_counter < 2 ∧ 2 ≤ counter
     end) ∧
  ((∀ n data, Rest.listing c n ≠ Rest.Reply 200 (Some data)) →
   ∀ i v d, ds !! i = Some (v, d) →
     d = Rest.NotFound ∨ d = Rest.AlreadyMoving ∨ d = Rest.StartRequested 0).
Proof.
  intros (ds' & -> & Hpre & Hall & Hfail & Hex)%run_loop_spec.
  simpl in *. split_and!; [done|done|done|done|].
  intros Hno i v d Hd. specialize (Hex i v d Hd).
  destruct d as [| |counter|counter multi]; [by left|by right; left| |].
  - destruct Hex as (_ & _ & n & m & Hobs & _).
    rewrite get_vol_moves_failed in Hobs by done. right; right. by simplify_eq.
  - destruct Hex as (_ & _ & n & Hobs & _ & Hc).
    rewrite get_vol_moves_failed in Hobs by done. simplify_eq. lia.
Qed.

(** The theorem on four volumes: the first waits one minute and is then
    skipped, the second is not found, the last two are started because the
    listing fails. *)
Lemma run_admission_witness :
  Rest.run Rest.sample_cluster "aggr0" 5 ["a"; "b"; "c"; "d"]
    = Some ([("a", Rest.Skipped 3 0); ("b", Rest.NotFound);
             ("c", Rest.StartRequested 0); ("d", Rest.StartRequested 0)],
            Rest.Completed) ∧
  [("a", Rest.Skipped 3 0); ("b", Rest.NotFound);
   ("c", Rest.StartRequested 0); ("d", Rest.StartRequested 0)].*1
    `prefix_of` ["a"; "b"; "c"; "d"].
Proof.
  split; [vm_compute; reflexivity|].
  apply (run_admission Rest.sample_cluster "aggr0" 5 ["a"; "b"; "c"; "d"] _
           Rest.Completed).
  vm_compute. reflexivity.
Defined.

(** X19. [run] comes to the end of its list (or to the start that raises)
    whenever every wait meets, within [fuel] further calls, a call of
    [get_vol_moves] that counts fewer than two moves of the source
    aggregate; a listing that fails counts none. *)
Theorem run_ends (c : Rest.Cluster) (source_aggr : string) (fuel : nat)
    (volume_list : list string) :
  (∀ n, ∃ k, k ≤ fuel ∧
     ((Rest.get_vol_moves source_aggr (Rest.listing c (n + k))
         (Rest.detail c (n + k))).2 < 2 ∨
      ∀ data, Rest.listing c (n + k) ≠ Rest.Reply 200 (Some data))) →
  ∃ ds e, Rest.run c source_aggr fuel volume_list = Some (ds, e).
Proof.
  intros Hlive.
  destruct (run_loop_ends c source_aggr fuel volume_list 0 0 []) as [[ds e] H].
  - intros n. destruct (Hlive n) as (k & Hk & [Hm|Hno]); exists k; (split; [done|]).
    + done.
    + rewrite get_vol_moves_failed by done. simpl. lia.
  - by exists ds, e.
Qed.

(** The theorem on the sample cluster, whose listing fails from the third
    call on. *)
Lemma run_ends_witness :
  ∃ ds e, Rest.run Rest.sample_cluster "aggr0" 1 ["a"; "b"; "c"; "d"] = Some (ds, e).
Proof.
  apply (run_ends Rest.sample_cluster "aggr0" 1 ["a"; "b"; "c"; "d"]).
  intros [|[|n]].
  - exists 1. split; [lia|]. left. vm_compute. lia.
  - exists 0. split; [lia|]. left. vm_compute. lia.
  - exists 0. split; [lia|]. right. intros data. rewrite Nat.add_0_r. done.
Defined.
